(** * NPP: lexer, parser and interpreter of the npp language

    A shallow embedding of the Go packages [frontend/lexer],
    [frontend/parser] and [core/interpreter], followed by the properties of
    the pipeline.

    Conventions.
    - A Go [string] is a sequence of bytes: Rocq's [string] (a list of
      8-bit [ascii]).  A [byte] is an [ascii]; the byte 0 is [zero].
    - Go's [int] counters that index the input ([position], [readPosition])
      are [nat]; line and column numbers are [Z].  They are bounded by the
      input length plus the number of calls, far below 2^63, so their
      wrap-around is left out.  [int64] program values are [Z] with the
      two's complement wrap-around written out ([wrap64]).
    - Standard output is the list of the events written to it, oldest
      first; [render] gives the bytes.
    - Loops are bounded recursions; for each one the bound is shown
      sufficient (the loop leaves by its own test). *)

From Stdlib Require Import ZArith String Ascii List Lia DecimalString.
From stdpp Require Import gmap strings.
Import ListNotations.

Local Open Scope string_scope.
Local Open Scope Z_scope.

(** * The program *)

(** ** Go primitives used by the three packages *)

Module Go.

(** [s[i]] for an index known to be in range; [zero] stands for the
    unreachable out-of-range read. *)
Definition index (s : string) (i : nat) : ascii :=
  match String.get i s with
  | Some c => c
  | None => zero
  end.

(** [s[lo:hi]], for bounds that are in range (the lexer's are: lemmas
    [readIdentifier_slice], [readNumber_slice], [readString_slice]). *)
Definition slice (s : string) (lo hi : nat) : string :=
  String.substring lo (hi - lo) s.

(** [string(b)] for a byte [b]: the UTF-8 encoding of the code point [b]. *)
Definition string_of_byte (b : ascii) : string :=
  let n := N_of_ascii b in
  if (n <? 128)%N then String b EmptyString
  else String (ascii_of_N (192 + n / 64))
         (String (ascii_of_N (128 + n mod 64)) EmptyString).

(** [unicode.IsLetter(rune(b))] on the Latin-1 range. *)
Definition unicode_IsLetter (b : ascii) : bool :=
  let n := N_of_ascii b in
  ((65 <=? n) && (n <=? 90) || (97 <=? n) && (n <=? 122)
   || (n =? 170) || (n =? 181) || (n =? 186)
   || (192 <=? n) && (n <=? 214) || (216 <=? n) && (n <=? 246)
   || (248 <=? n) && (n <=? 255))%N.

(** [unicode.IsDigit(rune(b))] on the Latin-1 range. *)
Definition unicode_IsDigit (b : ascii) : bool :=
  let n := N_of_ascii b in ((48 <=? n) && (n <=? 57))%N.

(** The verb [%d]. *)
Definition fmt_d (z : Z) : string := NilZero.string_of_int (Z.to_int z).

Definition minInt64 : Z := - 2 ^ 63.
Definition maxInt64 : Z := 2 ^ 63 - 1.

Definition in_int64 (z : Z) : Prop := minInt64 <= z <= maxInt64.

(** Reduction of an integer to the [int64] it is stored as. *)
Definition wrap64 (z : Z) : Z := (z + 2 ^ 63) mod 2 ^ 64 - 2 ^ 63.

Definition digit_value (c : ascii) : option Z :=
  let n := N_of_ascii c in
  if ((48 <=? n) && (n <=? 57))%N then Some (Z.of_N n - 48) else None.

Fixpoint digits_value (acc : Z) (s : string) : option Z :=
  match s with
  | EmptyString => Some acc
  | String c rest =>
      match digit_value c with
      | Some d => digits_value (10 * acc + d) rest
      | None => None
      end
  end.

(** [strconv.ParseInt(s, 10, 64)]: [None] is a non-nil [err] (syntax or
    range). *)
Definition ParseInt (s : string) : option Z :=
  let '(neg, body) :=
    match s with
    | String "+"%char rest => (false, rest)
    | String "-"%char rest => (true, rest)
    | _ => (false, s)
    end in
  match body with
  | EmptyString => None
  | _ =>
      match digits_value 0 body with
      | Some v =>
          let v' := if neg then - v else v in
          if (minInt64 <=? v') && (v' <=? maxInt64) then Some v' else None
      | None => None
      end
  end.

(** Standard output: what [fmt.Println] and [fmt.Printf] wrote. *)
Inductive Event :=
| Println (s : string)              (* fmt.Println(s) *)
| Errorf (line col : Z) (msg : string)
    (* fmt.Printf of the format [Error at line %d, col %d: ] followed by
       [msg] and a newline *)
| Printf (s : string).              (* any other fmt.Printf, its text *)

Definition nl : string := String "010"%char EmptyString.

Definition render_event (e : Event) : string :=
  match e with
  | Println s => s ++ nl
  | Errorf line col msg =>
      "Error at line " ++ fmt_d line ++ ", col " ++ fmt_d col ++ ": "
      ++ msg ++ nl
  | Printf s => s
  end.

Definition render (out : list Event) : string :=
  List.fold_right (fun e acc => render_event e ++ acc) EmptyString out.

End Go.

(** ** Package lexer *)

Module lexer.

Record Lexer := mkLexer {
  input : string;        (* source code *)
  position : nat;        (* current position (index of ch) *)
  readPosition : nat;    (* position after current char *)
  ch : ascii;            (* current char *)
  line : Z;              (* current line number *)
  column : Z             (* current column number *)
}.

Definition TokenType := string.

Record Token := mkToken {
  Type_ : TokenType;
  Literal : string;
  Line : Z;
  Column : Z
}.

Definition ILLEGAL : TokenType := "ILLEGAL".
Definition EOF : TokenType := "EOF".
Definition IDENT : TokenType := "IDENT".
Definition INT : TokenType := "INT".
Definition STRING : TokenType := "STRING".
Definition ASSIGN : TokenType := "=".
Definition EQ : TokenType := "==".
Definition NOT_EQ : TokenType := "!=".
Definition PLUS : TokenType := "+".
Definition MINUS : TokenType := "-".
Definition BANG : TokenType := "!".
Definition ASTERISK : TokenType := "*".
Definition SLASH : TokenType := "/".
Definition LT : TokenType := "<".
Definition GT : TokenType := ">".
Definition LE : TokenType := "<=".
Definition GE : TokenType := ">=".
Definition COMMA : TokenType := ",".
Definition SEMICOLON : TokenType := ";".
Definition LPAREN : TokenType := "(".
Definition RPAREN : TokenType := ")".
Definition LBRACE : TokenType := "{".
Definition RBRACE : TokenType := "}".
Definition SUN : TokenType := "SUN".
Definition SUNA : TokenType := "SUNA".
Definition AGAR : TokenType := "AGAR".
Definition MAGAR : TokenType := "MAGAR".
Definition GLOW : TokenType := "GLOW".
Definition FHEK : TokenType := "FHEK".
Definition YAS : TokenType := "YAS".
Definition NAH : TokenType := "NAH".
Definition GRIND : TokenType := "GRIND".

Definition newline : ascii := "010"%char.
Definition tab : ascii := "009"%char.
Definition carriage_return : ascii := "013"%char.
Definition quote : ascii := "034"%char.

Definition readChar (l : Lexer) : Lexer :=
  let c :=
    if (String.length (input l) <=? readPosition l)%nat then zero
    else Go.index (input l) (readPosition l) in
  let '(ln, col) :=
    if Ascii.eqb c newline then (line l + 1, 1)
    else if negb (Ascii.eqb c zero) then (line l, column l + 1)
    else (line l, column l) in
  {| input := input l;
     position := readPosition l;
     readPosition := S (readPosition l);
     ch := c;
     line := ln;
     column := col |}.

Definition New (input : string) : Lexer :=
  readChar {| input := input; position := 0; readPosition := 0;
              ch := zero; line := 1; column := 1 |}.

Definition peekChar (l : Lexer) : ascii :=
  if (String.length (input l) <=? readPosition l)%nat then zero
  else Go.index (input l) (readPosition l).

Definition newToken (tokenType : TokenType) (literal : string)
    (line column : Z) : Token :=
  {| Type_ := tokenType; Literal := literal; Line := line; Column := column |}.

(** [for test(l.ch) { l.readChar() }], at most [fuel] tests. *)
Fixpoint readWhile (fuel : nat) (test : ascii -> bool) (l : Lexer) : Lexer :=
  match fuel with
  | O => l
  | S fuel' =>
      if test (ch l) then readWhile fuel' test (readChar l) else l
  end.

(** Number of tests after which every such loop has met the byte 0 that
    [readChar] delivers past the end of the input. *)
Definition loopBound (l : Lexer) : nat :=
  S (S (String.length (input l) - readPosition l)).

Definition isWhitespace (c : ascii) : bool :=
  Ascii.eqb c " " || Ascii.eqb c tab || Ascii.eqb c newline
  || Ascii.eqb c carriage_return.

Definition skipWhitespace (l : Lexer) : Lexer :=
  readWhile (loopBound l) isWhitespace l.

Definition inComment (c : ascii) : bool :=
  negb (Ascii.eqb c newline) && negb (Ascii.eqb c zero).

Definition skipComment (l : Lexer) : Lexer :=
  if Ascii.eqb (ch l) "/" && Ascii.eqb (peekChar l) "/"
  then readWhile (loopBound l) inComment l
  else l.

Definition isLetter (c : ascii) : bool :=
  Go.unicode_IsLetter c || Ascii.eqb c "_".

Definition isDigit (c : ascii) : bool := Go.unicode_IsDigit c.

Definition readIdentifier (l : Lexer) : string * Lexer :=
  let start := position l in
  let l' := readWhile (loopBound l) (fun c => isLetter c || isDigit c) l in
  (Go.slice (input l') start (position l'), l').

Definition readNumber (l : Lexer) : string * Lexer :=
  let start := position l in
  let l' := readWhile (loopBound l) isDigit l in
  (Go.slice (input l') start (position l'), l').

Definition inString (c : ascii) : bool :=
  negb (Ascii.eqb c quote) && negb (Ascii.eqb c zero).

Definition readString (l : Lexer) : string * Lexer :=
  let l1 := readChar l in
  let start := position l1 in
  let l2 := readWhile (loopBound l1) inString l1 in
  if Ascii.eqb (ch l2) zero
  then (Go.slice (input l2) start (position l2), l2)
  else (Go.slice (input l2) start (position l2), readChar l2).

Definition keywords : list (string * TokenType) :=
  [ ("sun", SUN); ("suna", SUNA); ("agar", AGAR); ("magar", MAGAR);
    ("glow", GLOW); ("fhek", FHEK); ("yas", YAS); ("nah", NAH);
    ("grind", GRIND) ].

Fixpoint assoc (k : string) (m : list (string * TokenType)) : option TokenType :=
  match m with
  | [] => None
  | (k', v) :: m' => if String.eqb k k' then Some v else assoc k m'
  end.

Definition lookupIdent (ident : string) : TokenType :=
  match assoc ident keywords with
  | Some tok => tok
  | None => IDENT
  end.

(** A two-character operator [c=]: the token is built after the second
    character has been read. *)
Definition twoChar (tokenType : TokenType) (l : Lexer) : Token * Lexer :=
  let c := ch l in
  let l1 := readChar l in
  ({| Type_ := tokenType;
      Literal := Go.string_of_byte c ++ Go.string_of_byte (ch l1);
      Line := line l1; Column := column l1 |}, l1).

(** A one-character token of the current character. *)
Definition oneChar (tokenType : TokenType) (l : Lexer) : Token * Lexer :=
  (newToken tokenType (Go.string_of_byte (ch l)) (line l) (column l), l).

(** The body of [NextToken]; [fuel] bounds the depth of its recursive call
    (the [//] case of the switch).  [None]: the bound was reached. *)
Fixpoint NextTokenFuel (fuel : nat) (l0 : Lexer) : option (Token * Lexer) :=
  match fuel with
  | O => None
  | S fuel' =>
      let l := skipComment (skipWhitespace l0) in
      let finish (r : Token * Lexer) := Some (fst r, readChar (snd r)) in
      let c := ch l in
      if Ascii.eqb c "=" then
        if Ascii.eqb (peekChar l) "=" then finish (twoChar EQ l)
        else finish (oneChar ASSIGN l)
      else if Ascii.eqb c "!" then
        if Ascii.eqb (peekChar l) "=" then finish (twoChar NOT_EQ l)
        else finish (oneChar BANG l)
      else if Ascii.eqb c "+" then finish (oneChar PLUS l)
      else if Ascii.eqb c "-" then finish (oneChar MINUS l)
      else if Ascii.eqb c "*" then finish (oneChar ASTERISK l)
      else if Ascii.eqb c "/" then
        if Ascii.eqb (peekChar l) "/"
        then NextTokenFuel fuel' (skipComment (readChar l))
        else finish (oneChar SLASH l)
      else if Ascii.eqb c "<" then
        if Ascii.eqb (peekChar l) "=" then finish (twoChar LE l)
        else finish (oneChar LT l)
      else if Ascii.eqb c ">" then
        if Ascii.eqb (peekChar l) "=" then finish (twoChar GE l)
        else finish (oneChar GT l)
      else if Ascii.eqb c "," then finish (oneChar COMMA l)
      else if Ascii.eqb c ";" then finish (oneChar SEMICOLON l)
      else if Ascii.eqb c "(" then finish (oneChar LPAREN l)
      else if Ascii.eqb c ")" then finish (oneChar RPAREN l)
      else if Ascii.eqb c "{" then finish (oneChar LBRACE l)
      else if Ascii.eqb c "}" then finish (oneChar RBRACE l)
      else if Ascii.eqb c quote then
        let '(s, l1) := readString l in
        Some ({| Type_ := STRING; Literal := s;
                 Line := line l1; Column := column l1 |}, l1)
      else if Ascii.eqb c zero then
        finish ({| Type_ := EOF; Literal := EmptyString;
                   Line := line l; Column := column l |}, l)
      else if isLetter c then
        let '(s, l1) := readIdentifier l in
        Some ({| Type_ := lookupIdent s; Literal := s;
                 Line := line l1; Column := column l1 |}, l1)
      else if isDigit c then
        let '(s, l1) := readNumber l in
        Some ({| Type_ := INT; Literal := s;
                 Line := line l1; Column := column l1 |}, l1)
      else finish (oneChar ILLEGAL l)
  end.

(** [NextToken], with a recursion bound that would cover one recursive
    call per remaining character; the zero token stands for the bound being
    reached, which [NextTokenFuel_total] excludes. *)
Definition NextToken (l : Lexer) : Token * Lexer :=
  match NextTokenFuel (loopBound l) l with
  | Some r => r
  | None => ({| Type_ := EmptyString; Literal := EmptyString;
                Line := line l; Column := column l |}, l)
  end.

(** The first [n] tokens of an input. *)
Fixpoint tokens (n : nat) (l : Lexer) : list Token :=
  match n with
  | O => []
  | S n' => let '(t, l') := NextToken l in t :: tokens n' l'
  end.

End lexer.

(** ** Package parser *)

Module parser.

Import lexer.
Export Go.

Record Identifier := mkIdentifier {
  Identifier_Token : Token;
  Identifier_Value : string
}.

(** The [Expression] interface: its four implementations, which are
    pointers that the parser never builds nil and that neither package
    tests for nil; they are taken non-nil.  A field of interface type may
    hold the nil interface, which the interpreter tests for: [None]. *)
#[local] Unset Elimination Schemes.
Inductive Expression :=
| Ident (i : Identifier)
| NumberLiteral (Tok : Token) (Value : Z)
| StringLiteral (Tok : Token) (Value : string)
| BinaryExpression (Tok : Token) (Left : option Expression)
    (Operator : string) (Right : option Expression).

Record PrintStatement := mkPrintStatement {
  PrintStatement_Tok : Token;
  PrintStatement_Value : option Expression
}.

Record AssignmentStatement := mkAssignmentStatement {
  AssignmentStatement_Tok : Token;
  AssignmentStatement_Name : option Identifier;   (* *Identifier *)
  AssignmentStatement_Value : option Expression
}.

(** A non-nil value of the [Statement] interface: one of the four pointer
    types that implement it, holding a pointer that may itself be nil
    ([None]).  Such a value differs from the nil interface: the test
    [stmt != nil] is true of [PrintStmt None], the result of converting a
    nil [*PrintStatement] to [Statement]. *)
Inductive Statement :=
| PrintStmt (s : option PrintStatement)
| AssignmentStmt (s : option AssignmentStatement)
| IfStmt (s : option IfStatement)
| BlockStmt (s : option BlockStatement)
with IfStatement :=
| mkIfStatement (Tok : Token) (Condition : option Expression)
    (Consequence Alternative : option BlockStatement)
with BlockStatement :=
| mkBlockStatement (Tok : Token) (Statements : list (option Statement)).

#[local] Set Elimination Schemes.

Record Program := mkProgram { Statements : list (option Statement) }.

Record Parser := mkParser {
  l : Lexer;
  curToken : Token;
  peekToken : Token;
  Debug : bool
}.

(** A parser action: [None] when the recursion bound is reached, else the
    result, the parser afterwards and what was written to standard
    output. *)
Definition M (A : Type) : Type := Parser -> option (A * Parser * list Event).

Definition ret {A} (a : A) : M A := fun p => Some (a, p, []).

Definition bind {A B} (m : M A) (k : A -> M B) : M B :=
  fun p =>
    match m p with
    | None => None
    | Some (a, p1, o1) =>
        match k a p1 with
        | None => None
        | Some (b, p2, o2) => Some (b, p2, (o1 ++ o2)%list)
        end
    end.

Notation "x <- m ;; k" := (bind m (fun x => k))
  (at level 100, m at level 99, right associativity).
Notation "m ;;; k" := (bind m (fun _ => k))
  (at level 100, right associativity).

Definition emit (e : Event) : M unit := fun p => Some (tt, p, [e]).
Definition get {A} (f : Parser -> A) : M A := fun p => Some (f p, p, []).
Definition cur : M Token := get curToken.
Definition out_of_fuel {A} : M A := fun _ => None.

Definition advance (p : Parser) : Parser :=
  let '(t, l') := NextToken (l p) in
  {| l := l'; curToken := peekToken p; peekToken := t; Debug := Debug p |}.

Definition nextToken : M unit := fun p => Some (tt, advance p, []).

Definition zeroToken : Token :=
  {| Type_ := EmptyString; Literal := EmptyString; Line := 0; Column := 0 |}.

Definition New (l : Lexer) (Debug : bool) : Parser :=
  advance (advance {| l := l; curToken := zeroToken;
                      peekToken := zeroToken; Debug := Debug |}).

Definition LOWEST : Z := 1.
Definition EQUALS : Z := 2.
Definition LESSGREATER : Z := 3.
Definition SUM : Z := 4.
Definition PRODUCT : Z := 5.

Definition precedences : list (TokenType * Z) :=
  [ (EQ, EQUALS); (NOT_EQ, EQUALS);
    (LT, LESSGREATER); (GT, LESSGREATER); (LE, LESSGREATER);
    (GE, LESSGREATER);
    (PLUS, SUM); (MINUS, SUM);
    (ASTERISK, PRODUCT); (SLASH, PRODUCT) ].

Fixpoint lookup_prec (t : TokenType) (m : list (TokenType * Z)) : option Z :=
  match m with
  | [] => None
  | (k, v) :: m' => if String.eqb t k then Some v else lookup_prec t m'
  end.

Definition getPrecedence (tokenType : TokenType) : Z :=
  match lookup_prec tokenType precedences with
  | Some p => p
  | None => LOWEST
  end.

Definition getCurrentPrecedence (p : Parser) : Z :=
  getPrecedence (Type_ (curToken p)).

Definition isOperator (tokenType : TokenType) : bool :=
  String.eqb tokenType PLUS || String.eqb tokenType MINUS
  || String.eqb tokenType ASTERISK || String.eqb tokenType SLASH
  || String.eqb tokenType EQ || String.eqb tokenType NOT_EQ
  || String.eqb tokenType LT || String.eqb tokenType GT
  || String.eqb tokenType LE || String.eqb tokenType GE.

Definition errorAtCur (msg : Token -> string) : M unit :=
  t <- cur ;; emit (Errorf (Line t) (Column t) (msg t)).

Definition parsePrimary : M (option Expression) :=
  t <- cur ;;
  if String.eqb (Type_ t) INT then
    match Go.ParseInt (Literal t) with
    | None =>
        errorAtCur (fun t => "Invalid number " ++ Literal t
                             ++ " // Numbers too hard for you, huh?") ;;;
        ret None
    | Some value =>
        nextToken ;;; ret (Some (NumberLiteral t value))
    end
  else if String.eqb (Type_ t) STRING then
    nextToken ;;; ret (Some (StringLiteral t (Literal t)))
  else if String.eqb (Type_ t) IDENT then
    nextToken ;;; ret (Some (Ident (mkIdentifier t (Literal t))))
  else
    errorAtCur (fun t => "Expected number, string, or identifier, got "
                         ++ Type_ t ++ " // What even is this, genius?") ;;;
    ret None.

(** The first part of [parseExpression]: a negated integer literal or a
    primary expression. *)
Definition parseOperand : M (option Expression) :=
  token <- cur ;;
  if String.eqb (Type_ token) MINUS then
    nextToken ;;;
    t <- cur ;;
    if negb (String.eqb (Type_ t) INT) then
      errorAtCur (fun t => "Expected number after -, got " ++ Type_ t
                           ++ " // Numbers too hard for you, huh?") ;;;
      ret None
    else
      match Go.ParseInt (Literal t) with
      | None =>
          errorAtCur (fun t => "Invalid number " ++ Literal t
                               ++ " // Numbers too hard for you, huh?") ;;;
          ret None
      | Some value =>
          nextToken ;;; ret (Some (NumberLiteral token (Go.wrap64 (- value))))
      end
  else parsePrimary.

(** The test of the loop of [parseExpression], its [break] included. *)
Definition continues (precedence : Z) (p : Parser) : bool :=
  let t := Type_ (curToken p) in
  negb (String.eqb t EOF) && negb (String.eqb t SEMICOLON)
  && negb (String.eqb t RBRACE) && negb (String.eqb t LBRACE)
  && (precedence <? getCurrentPrecedence p)
  && isOperator t.

Fixpoint parseExpression (fuel : nat) (precedence : Z) : M (option Expression) :=
  match fuel with
  | O => out_of_fuel
  | S fuel' =>
      left_ <- parseOperand ;;
      match left_ with
      | None => ret None
      | Some left_ => parseExpressionLoop fuel' precedence left_
      end
  end
with parseExpressionLoop (fuel : nat) (precedence : Z) (left_ : Expression)
    : M (option Expression) :=
  match fuel with
  | O => out_of_fuel
  | S fuel' =>
      more <- get (continues precedence) ;;
      if more : bool then
         op <- cur ;;
         nextToken ;;;
         right_ <- parseExpression fuel' (getPrecedence (Type_ op)) ;;
         match right_ with
         | None =>
             errorAtCur (fun _ => "Expected expression after " ++ Literal op
                                  ++ " // What's this nonsense, loser?") ;;;
             ret None
         | Some right_ =>
             parseExpressionLoop fuel' precedence
               (BinaryExpression op (Some left_) (Literal op) (Some right_))
         end
      else ret (Some left_)
  end.

Fixpoint skipSemicolons (fuel : nat) : M unit :=
  match fuel with
  | O => out_of_fuel
  | S fuel' =>
      t <- cur ;;
      if String.eqb (Type_ t) SEMICOLON
      then nextToken ;;; skipSemicolons fuel'
      else ret tt
  end.

Definition parsePrintStatement (fuel : nat) : M (option PrintStatement) :=
  tok <- cur ;;
  nextToken ;;;
  value <- parseExpression fuel LOWEST ;;
  match value with
  | None =>
      errorAtCur (fun t => "Expected expression after suna, got " ++ Type_ t
                           ++ " // You absolute walnut!") ;;;
      ret None
  | Some v => ret (Some (mkPrintStatement tok (Some v)))
  end.

(** The [case lexer.SUN] of [parseStatement]. *)
Definition parseAssignment (fuel : nat) : M (option Statement) :=
  tok <- cur ;;
  nextToken ;;;
  t <- cur ;;
  if negb (String.eqb (Type_ t) IDENT) then
    errorAtCur (fun t => "Expected identifier after SUN, got " ++ Type_ t
                         ++ " // My grandma codes better!") ;;;
    ret None
  else
    let name := mkIdentifier t (Literal t) in
    nextToken ;;;
    t <- cur ;;
    if negb (String.eqb (Type_ t) ASSIGN) then
      errorAtCur (fun t => "Expected = after identifier, got " ++ Type_ t
                           ++ " // Yo, nice one, jerk!") ;;;
      ret None
    else
      nextToken ;;;
      value <- parseExpression fuel LOWEST ;;
      match value with
      | None =>
          errorAtCur (fun t => "Expected expression after =, got " ++ Type_ t
                               ++ " // You absolute walnut!") ;;;
          ret None
      | Some v =>
          ret (Some (AssignmentStmt
                       (Some (mkAssignmentStatement tok (Some name) (Some v)))))
      end.

Definition invalidStatement : M unit :=
  errorAtCur (fun t => "Invalid statement, got " ++ Type_ t
                       ++ " // Keep it together, genius!").

(** [parseStatement] returns a [Statement]: the pointers returned by
    [parsePrintStatement] and [parseIfStatement] are converted to the
    interface, a nil pointer giving a non-nil interface value. *)
Fixpoint parseStatement (fuel : nat) : M (option Statement) :=
  match fuel with
  | O => out_of_fuel
  | S fuel' =>
      t <- cur ;;
      if String.eqb (Type_ t) SUN then parseAssignment fuel'
      else if String.eqb (Type_ t) SUNA then
        r <- parsePrintStatement fuel' ;; ret (Some (PrintStmt r))
      else if String.eqb (Type_ t) AGAR then
        r <- parseIfStatement fuel' ;; ret (Some (IfStmt r))
      else invalidStatement ;;; ret None
  end
with parseIfStatement (fuel : nat) : M (option IfStatement) :=
  match fuel with
  | O => out_of_fuel
  | S fuel' =>
      tok <- cur ;;
      nextToken ;;;
      condition <- parseExpression fuel' LOWEST ;;
      match condition with
      | None =>
          errorAtCur (fun t => "Expected condition after agar, got "
                               ++ Type_ t ++ " // This syntax sucks, fix it!") ;;;
          ret None
      | Some c =>
          t <- cur ;;
          if negb (String.eqb (Type_ t) LBRACE) then
            errorAtCur (fun t => "Expected { after condition, got " ++ Type_ t
                                 ++ " // Get your braces together, loser!") ;;;
            ret None
          else
            consequence <- parseBlockStatement fuel' ;;
            match consequence with
            | None =>
                errorAtCur (fun _ => "Invalid block after agar // This ain't working, jerk!") ;;;
                ret None
            | Some cons_ =>
                nextToken ;;;                       (* Skip closing brace *)
                skipSemicolons fuel' ;;;
                t <- cur ;;
                if String.eqb (Type_ t) MAGAR then
                  nextToken ;;;
                  t <- cur ;;
                  if negb (String.eqb (Type_ t) LBRACE) then
                    errorAtCur (fun t => "Expected { after magar, got "
                                         ++ Type_ t
                                         ++ " // Get your braces together, loser!") ;;;
                    ret None
                  else
                    alternative <- parseBlockStatement fuel' ;;
                    match alternative with
                    | None =>
                        errorAtCur (fun _ => "Invalid block after magar // This ain't working, jerk!") ;;;
                        ret None
                    | Some alt =>
                        nextToken ;;;               (* Skip closing brace *)
                        ret (Some (mkIfStatement tok (Some c) (Some cons_)
                                     (Some alt)))
                    end
                else ret (Some (mkIfStatement tok (Some c) (Some cons_) None))
            end
      end
  end
with parseBlockStatement (fuel : nat) : M (option BlockStatement) :=
  match fuel with
  | O => out_of_fuel
  | S fuel' =>
      tok <- cur ;;
      nextToken ;;;
      stmts <- parseBlockLoop fuel' [] ;;
      t <- cur ;;
      if negb (String.eqb (Type_ t) RBRACE) then
        errorAtCur (fun t => "Expected } to close block, got " ++ Type_ t
                             ++ " // Close your blocks, you walnut!") ;;;
        ret None
      else ret (Some (mkBlockStatement tok stmts))
  end
with parseBlockLoop (fuel : nat) (acc : list (option Statement))
    : M (list (option Statement)) :=
  match fuel with
  | O => out_of_fuel
  | S fuel' =>
      t <- cur ;;
      if negb (String.eqb (Type_ t) RBRACE) && negb (String.eqb (Type_ t) EOF)
      then
        stmt <- parseStatement fuel' ;;
        acc' <- match stmt with
                | Some s => ret (acc ++ [Some s])%list
                | None => nextToken ;;; ret acc
                end ;;
        skipSemicolons fuel' ;;;
        parseBlockLoop fuel' acc'
      else ret acc
  end.

(** The verb [%v] of a [Token]. *)
Definition fmt_v_Token (t : Token) : string :=
  "{" ++ Type_ t ++ " " ++ Literal t ++ " " ++ Go.fmt_d (Line t) ++ " "
  ++ Go.fmt_d (Column t) ++ "}".

(** One turn of the loop of [ParseProgram], entered with a current token
    other than EOF. *)
Definition parseProgramStep (fuel : nat) (acc : list (option Statement))
    : M (list (option Statement)) :=
  t <- cur ;;
  dbg <- get Debug ;;
  (if dbg : bool then
     emit (Printf ("Debug: Parsing statement at " ++ fmt_v_Token t
                   ++ " (line " ++ Go.fmt_d (Line t) ++ ", col "
                   ++ Go.fmt_d (Column t) ++ ")" ++ Go.nl))
   else ret tt) ;;;
  stmt <- parseStatement fuel ;;
  acc' <- match stmt with
          | Some s => ret (acc ++ [Some s])%list
          | None => invalidStatement ;;; nextToken ;;; ret acc
          end ;;
  skipSemicolons fuel ;;;
  ret acc'.

Fixpoint parseProgramLoop (fuel : nat) (acc : list (option Statement))
    : M (list (option Statement)) :=
  match fuel with
  | O => out_of_fuel
  | S fuel' =>
      t <- cur ;;
      if negb (String.eqb (Type_ t) EOF) then
        acc' <- parseProgramStep fuel' acc ;;
        parseProgramLoop fuel' acc'
      else ret acc
  end.

Definition ParseProgram (fuel : nat) : M Program :=
  stmts <- parseProgramLoop fuel [] ;; ret (mkProgram stmts).

End parser.

(** ** Package interpreter *)

Module interpreter.

Import lexer parser.

(** The [Object] interface: an [*IntObject] or a [*StringObject]. *)
Inductive Object :=
| IntObject (Value : Z)
| StringObject (Value : string).

Definition Object_String (o : Object) : string :=
  match o with
  | IntObject v => Go.fmt_d v
  | StringObject v => v
  end.

Record Environment := mkEnvironment { store : gmap string Object }.

Definition NewEnvironment : Environment := {| store := ∅ |}.

Record Interpreter := mkInterpreter { env : Environment }.

Definition New : Interpreter := {| env := NewEnvironment |}.

(** How a call ends: it returns, or a run-time panic unwinds it (nothing
    in the program recovers, so a panic ends the process). *)
Inductive Result (A : Type) :=
| Returns (a : A)
| Panics (msg : string).
Arguments Returns {A} a.
Arguments Panics {A} msg.

Definition boolToInt (b : bool) : Z := if b then 1 else 0.

Definition isTruthy (obj : Object) : bool :=
  match obj with
  | IntObject v => negb (v =? 0)
  | StringObject v => (0 <? String.length v)%nat
  end.

Definition divide_error : string := "runtime error: integer divide by zero".

(** The [switch op] over two integers; [None] when no case matches and
    control falls through to the code after it. *)
Definition intSwitch (token : Token) (a : Z) (op : string) (b : Z)
    : option (list Event * Result (option Object)) :=
  if String.eqb op "+" then
    Some ([], Returns (Some (IntObject (Go.wrap64 (a + b)))))
  else if String.eqb op "-" then
    Some ([], Returns (Some (IntObject (Go.wrap64 (a - b)))))
  else if String.eqb op "*" then
    Some ([], Returns (Some (IntObject (Go.wrap64 (a * b)))))
  else if String.eqb op "%" then
    if b =? 0 then Some ([], Panics divide_error)
    else Some ([], Returns (Some (IntObject (Z.rem a b))))
  else if String.eqb op "/" then
    if b =? 0 then
      Some ([Errorf (Line token) (Column token) "Division by zero "],
            Returns None)
    else Some ([], Returns (Some (IntObject (Go.wrap64 (Z.quot a b)))))
  else if String.eqb op "==" then
    Some ([], Returns (Some (IntObject (boolToInt (a =? b)))))
  else if String.eqb op "!=" then
    Some ([], Returns (Some (IntObject (boolToInt (negb (a =? b))))))
  else if String.eqb op "<" then
    Some ([], Returns (Some (IntObject (boolToInt (a <? b)))))
  else if String.eqb op ">" then
    Some ([], Returns (Some (IntObject (boolToInt (a >? b)))))
  else if String.eqb op "<=" then
    Some ([], Returns (Some (IntObject (boolToInt (a <=? b)))))
  else if String.eqb op ">=" then
    Some ([], Returns (Some (IntObject (boolToInt (a >=? b)))))
  else None.

Definition invalidOperation (token : Token) (left_ : Object) (op : string)
    (right_ : Object) : list Event * Result (option Object) :=
  ([Errorf (Line token) (Column token)
      ("Invalid operation " ++ op ++ " between " ++ Object_String left_
       ++ " and " ++ Object_String right_ ++ " ")],
   Returns None).

Definition evalBinaryExpression (token : Token) (left_ : Object)
    (op : string) (right_ : Object) : list Event * Result (option Object) :=
  match left_, right_ with
  | IntObject a, IntObject b =>
      match intSwitch token a op b with
      | Some r => r
      | None => invalidOperation token left_ op right_
      end
  | StringObject a, StringObject b =>
      if String.eqb op "+"
      then ([], Returns (Some (StringObject (a ++ b))))
      else invalidOperation token left_ op right_
  | _, _ => invalidOperation token left_ op right_
  end.

(** [evalExpression] on a non-nil expression.  The environment is only
    read. *)
Fixpoint evalExpr (i : Interpreter) (e : Expression)
    : list Event * Result (option Object) :=
  match e with
  | NumberLiteral _ v => ([], Returns (Some (IntObject v)))
  | StringLiteral _ v => ([], Returns (Some (StringObject v)))
  | Ident id =>
      match store (env i) !! Identifier_Value id with
      | None =>
          ([Errorf (Line (Identifier_Token id)) (Column (Identifier_Token id))
              ("Undefined variable " ++ Identifier_Value id ++ " ")],
           Returns None)
      | Some value => ([], Returns (Some value))
      end
  | BinaryExpression tok l op r =>
      let '(o1, r1) :=
        match l with
        | None => ([], Returns None)
        | Some l' => evalExpr i l'
        end in
      match r1 with
      | Panics m => (o1, Panics m)
      | Returns None => (o1, Returns None)
      | Returns (Some lv) =>
          let '(o2, r2) :=
            match r with
            | None => ([], Returns None)
            | Some r' => evalExpr i r'
            end in
          match r2 with
          | Panics m => ((o1 ++ o2)%list, Panics m)
          | Returns None => ((o1 ++ o2)%list, Returns None)
          | Returns (Some rv) =>
              let '(o3, r3) := evalBinaryExpression tok lv op rv in
              ((o1 ++ o2 ++ o3)%list, r3)
          end
      end
  end.

Definition evalExpression (i : Interpreter) (expr : option Expression)
    : list Event * Result (option Object) :=
  match expr with
  | None => ([], Returns None)
  | Some e => evalExpr i e
  end.

Definition assign (i : Interpreter) (name : string) (value : Object)
    : Interpreter :=
  {| env := {| store := <[name := value]> (store (env i)) |} |}.

(** [for _, stmt := range stmts { if stmt != nil { eval(stmt) } }] *)
Definition rangeStatements
    (eval : Interpreter -> Statement -> list Event * Result Interpreter)
    : list (option Statement) -> Interpreter -> list Event * Result Interpreter :=
  fix run (stmts : list (option Statement)) (i : Interpreter) :=
    match stmts with
    | [] => ([], Returns i)
    | stmt :: rest =>
        let '(o1, r1) :=
          match stmt with
          | None => ([], Returns i)
          | Some s => eval i s
          end in
        match r1 with
        | Panics m => (o1, Panics m)
        | Returns i1 =>
            let '(o2, r2) := run rest i1 in ((o1 ++ o2)%list, r2)
        end
    end.

(** [evalStatement] on a non-nil interface value. *)
Fixpoint evalStatement (i : Interpreter) (stmt : Statement) {struct stmt}
    : list Event * Result Interpreter :=
  match stmt with
  | PrintStmt None => ([], Returns i)
  | PrintStmt (Some s) =>
      let tok := PrintStatement_Tok s in
      match PrintStatement_Value s with
      | None =>
          ([Errorf (Line tok) (Column tok) "Invalid print statement "],
           Returns i)
      | Some e =>
          let '(o, r) := evalExpr i e in
          match r with
          | Panics m => (o, Panics m)
          | Returns (Some value) =>
              ((o ++ [Println (Object_String value)])%list, Returns i)
          | Returns None =>
              ((o ++ [Errorf (Line tok) (Column tok)
                        "Invalid expression in print "])%list, Returns i)
          end
      end
  | AssignmentStmt None => ([], Returns i)
  | AssignmentStmt (Some s) =>
      let tok := AssignmentStatement_Tok s in
      match AssignmentStatement_Name s, AssignmentStatement_Value s with
      | Some name, Some e =>
          let '(o, r) := evalExpr i e in
          match r with
          | Panics m => (o, Panics m)
          | Returns (Some value) =>
              (o, Returns (assign i (Identifier_Value name) value))
          | Returns None =>
              ((o ++ [Errorf (Line tok) (Column tok)
                        "Invalid expression in assignment "])%list, Returns i)
          end
      | _, _ =>
          ([Errorf (Line tok) (Column tok) "Invalid assignment statement "],
           Returns i)
      end
  | IfStmt None => ([], Returns i)
  | IfStmt (Some (mkIfStatement tok condition consequence alternative)) =>
      match condition with
      | None =>
          ([Errorf (Line tok) (Column tok) "Invalid if statement "], Returns i)
      | Some c =>
          match consequence with
          | None =>
              ([Errorf (Line tok) (Column tok) "Invalid if block "], Returns i)
          | Some (mkBlockStatement _ cons_) =>
              let '(o, r) := evalExpr i c in
              match r with
              | Panics m => (o, Panics m)
              | Returns None =>
                  ((o ++ [Errorf (Line tok) (Column tok)
                            "Invalid condition in if "])%list, Returns i)
              | Returns (Some cond) =>
                  let '(o', r') :=
                    if isTruthy cond then rangeStatements evalStatement cons_ i
                    else
                      match alternative with
                      | Some (mkBlockStatement _ alt) =>
                          rangeStatements evalStatement alt i
                      | None => ([], Returns i)
                      end in
                  ((o ++ o')%list, r')
              end
          end
      end
  | BlockStmt _ => ([Printf ("Error: Unknown statement type" ++ Go.nl)], Returns i)
  end.

Definition Interpret (i : Interpreter) (program : option Program)
    : list Event * Result Interpreter :=
  match program with
  | None => ([], Returns i)
  | Some prog => rangeStatements evalStatement (Statements prog) i
  end.

End interpreter.

(** ** Package main *)

Module main.

(** The pipeline of [main] and of [TestCodeNPP] on a source text: what is
    written to standard output and how the run ends; [None] when [fuel]
    does not cover the parse. *)
Definition run (fuel : nat) (code : string)
    : option (list Go.Event * interpreter.Result interpreter.Interpreter) :=
  let l := lexer.New code in
  let p := parser.New l false in
  match parser.ParseProgram fuel p with
  | None => None
  | Some (program, _, o1) =>
      let '(o2, r) := interpreter.Interpret interpreter.New (Some program) in
      Some ((o1 ++ o2)%list, r)
  end.

Definition dq : string := String lexer.quote EmptyString.

(** The program of [main/hello.npp], as the README gives it. *)
Definition hello_npp : string :=
  "sun number = 2;" ++ Go.nl ++
  "suna number;" ++ Go.nl ++
  "sun a = " ++ dq ++ "hello " ++ dq ++ ";" ++ Go.nl ++
  "sun b = " ++ dq ++ "world" ++ dq ++ ";" ++ Go.nl ++
  "suna a+b;" ++ Go.nl ++
  "agar number >= 10 {" ++ Go.nl ++
  "    suna " ++ dq ++ "nice one baby!" ++ dq ++ ";" ++ Go.nl ++
  "} magar{" ++ Go.nl ++
  "    suna " ++ dq ++ "fuck off!" ++ dq ++ ";" ++ Go.nl ++
  "}" ++ Go.nl.

(** The same program on one line. *)
Definition hello_line : string :=
  "sun number = 2; suna number; sun a = " ++ dq ++ "hello " ++ dq
  ++ "; sun b = " ++ dq ++ "world" ++ dq
  ++ "; suna a+b; agar number >= 10 { suna " ++ dq ++ "nice one baby!" ++ dq
  ++ "; } magar{ suna " ++ dq ++ "fuck off!" ++ dq ++ "; }".

End main.

(** * Vocabulary of the properties *)

(** ** The lexer *)

Module lexer_spec.

Import lexer.

(** The state every [readChar] leaves: [ch] is the byte at [position], or
    0 past the end, and [readPosition] is the next index. *)
Definition lexer_ok (l : Lexer) : Prop :=
  readPosition l = S (position l)
  /\ ch l = (if (String.length (input l) <=? position l)%nat then zero
            else Go.index (input l) (position l)).

(** The input is exhausted: the current index is past its last byte. *)
Definition exhausted (l : Lexer) : Prop :=
  (String.length (input l) <= position l)%nat.

(** The lexer after [n] calls of [NextToken], and the token of call
    [n+1]. *)
Definition lexerAfter (inp : string) (n : nat) : Lexer :=
  Nat.iter n (fun l => snd (NextToken l)) (New inp).

Definition nthToken (inp : string) (n : nat) : Token :=
  fst (NextToken (lexerAfter inp n)).

(** [l'] is a later state of the lexer [l] on the same input. *)
Definition reaches (l l' : Lexer) : Prop :=
  lexer_ok l' /\ input l' = input l /\ (position l <= position l')%nat.

Definition advances (l l' : Lexer) : Prop :=
  lexer_ok l' /\ input l' = input l /\ (position l < position l')%nat.

(** The line and column, both counted from 1, of the byte at index [i] of
    [s]; the column restarts at 1 after each newline. *)
Fixpoint lineColumn (s : string) (i : nat) (ln col : Z) : Z * Z :=
  match i, s with
  | S i', String c rest =>
      if Ascii.eqb c newline then lineColumn rest i' (ln + 1) 1
      else lineColumn rest i' ln (col + 1)
  | _, _ => (ln, col)
  end.

Definition positionOf (s : string) (i : nat) : Z * Z := lineColumn s i 1 1.

(** The state in which [NextToken] takes [tok := Token{Line: l.line,
    Column: l.column}]: the lexer stands on the first character of the
    token it is about to return. *)
Definition atToken (l : Lexer) : Lexer := skipComment (skipWhitespace l).

(** For the token of call [n+1]: its type and literal, the position it
    records, the position of its first character in the input, and the
    lexer's own line and column when it stood on that character. *)
Definition positions (inp : string) (n : nat)
    : TokenType * string * (Z * Z) * (Z * Z) * (Z * Z) :=
  let l := lexerAfter inp n in
  let t := nthToken inp n in
  (Type_ t, Literal t, (Line t, Column t),
   positionOf inp (position (atToken l)),
   (line (atToken l), column (atToken l))).

(** The record [New] starts from, before its first [readChar]. *)
Definition initial (inp : string) : Lexer :=
  {| input := inp; position := 0; readPosition := 0; ch := zero;
     line := 1; column := 1 |}.

(** What [readChar] does to the line and the column on reading the byte
    [c], and the line and column after the first [k] bytes of [s]. *)
Definition count (c : ascii) (lc : Z * Z) : Z * Z :=
  if Ascii.eqb c newline then (fst lc + 1, 1)
  else if negb (Ascii.eqb c zero) then (fst lc, snd lc + 1)
  else lc.

Fixpoint scan (s : string) (k : nat) (lc : Z * Z) : Z * Z :=
  match k, s with
  | S k', String c rest => scan rest k' (count c lc)
  | _, _ => lc
  end.

(** Every byte of a string passes a test. *)
Fixpoint allChars (test : ascii -> bool) (s : string) : bool :=
  match s with
  | EmptyString => true
  | String c rest => test c && allChars test rest
  end.

(** The one-character and the two-character tokens of [NextToken], by
    their first character; the second character of the latter is [=]. *)
Definition oneCharTable : list (ascii * TokenType) :=
  [ ("="%char, ASSIGN); ("!"%char, BANG); ("+"%char, PLUS);
    ("-"%char, MINUS); ("*"%char, ASTERISK); ("/"%char, SLASH);
    ("<"%char, LT); (">"%char, GT); (","%char, COMMA);
    (";"%char, SEMICOLON); ("("%char, LPAREN); (")"%char, RPAREN);
    ("{"%char, LBRACE); ("}"%char, RBRACE) ].

Definition twoCharTable : list (ascii * TokenType) :=
  [ ("="%char, EQ); ("!"%char, NOT_EQ); ("<"%char, LE); (">"%char, GE) ].

Definition punctuation (c : ascii) : bool :=
  existsb (fun ct => Ascii.eqb c (fst ct)) oneCharTable.

(** [lexes l tok l']: standing on the first character of a token in [l],
    [NextToken] returns [tok] and leaves the lexer in [l']; one case for
    each way through its switch. *)
Inductive lexes (l : Lexer) : Token -> Lexer -> Prop :=
| lexes_two c T :
    In (c, T) twoCharTable -> ch l = c -> peekChar l = "="%char ->
    lexes l
      {| Type_ := T; Literal := String c (String "="%char EmptyString);
         Line := line (readChar l); Column := column (readChar l) |}
      (readChar (readChar l))
| lexes_one c T :
    In (c, T) oneCharTable -> ch l = c ->
    (forall T', In (c, T') twoCharTable -> peekChar l <> "="%char) ->
    lexes l
      {| Type_ := T; Literal := String c EmptyString;
         Line := line l; Column := column l |}
      (readChar l)
| lexes_string :
    ch l = quote ->
    lexes l
      {| Type_ := STRING; Literal := fst (readString l);
         Line := line (snd (readString l));
         Column := column (snd (readString l)) |}
      (snd (readString l))
| lexes_eof :
    ch l = zero ->
    lexes l
      {| Type_ := EOF; Literal := EmptyString;
         Line := line l; Column := column l |}
      (readChar l)
| lexes_identifier :
    isLetter (ch l) = true ->
    lexes l
      {| Type_ := lookupIdent (fst (readIdentifier l));
         Literal := fst (readIdentifier l);
         Line := line (snd (readIdentifier l));
         Column := column (snd (readIdentifier l)) |}
      (snd (readIdentifier l))
| lexes_number :
    isLetter (ch l) = false -> isDigit (ch l) = true ->
    lexes l
      {| Type_ := INT; Literal := fst (readNumber l);
         Line := line (snd (readNumber l));
         Column := column (snd (readNumber l)) |}
      (snd (readNumber l))
| lexes_illegal :
    punctuation (ch l) = false -> ch l <> quote -> ch l <> zero ->
    isLetter (ch l) = false -> isDigit (ch l) = false ->
    lexes l
      {| Type_ := ILLEGAL; Literal := Go.string_of_byte (ch l);
         Line := line l; Column := column l |}
      (readChar l).

(** [k] calls of [readChar]. *)
Definition reads (k : nat) (l : Lexer) : Lexer := Nat.iter k readChar l.

(** The tokens that are built after the character that follows them has
    been read: identifiers and keywords, integers and strings. *)
Definition readAhead (t : Token) : bool :=
  String.eqb (Type_ t) STRING || String.eqb (Type_ t) INT
  || String.eqb (Type_ t) IDENT
  || existsb (fun kv => String.eqb (Type_ t) (snd kv)) keywords.

Definition noZero (s : string) : Prop :=
  allChars (fun c => negb (Ascii.eqb c zero)) s = true.

(** The token is one of the one-character operators and punctuation. *)
Definition isOneChar (t : Token) : bool :=
  existsb (fun ct => String.eqb (Type_ t) (snd ct)) oneCharTable.

(** The bounds of a slice expression [s[lo:hi]] that does not panic. *)
Definition sliceInRange (s : string) (lo hi : nat) : Prop :=
  (lo <= hi <= String.length s)%nat.

(** An input with tokens of more than one character on two lines. *)
Definition sample : string := "ab == 10" ++ Go.nl ++ "c".

End lexer_spec.

(** ** The parser *)

Module parser_spec.

Import lexer parser.

(** The precedence of the operator of a node. *)
Definition prec (tok : Token) : Z := getPrecedence (Type_ tok).

(** The operator at the root of [e], if [e] is a binary expression, binds
    tighter than level [q] (strictly or not); anything else does. *)
Definition rootAbove (strict : bool) (q : Z) (e : option Expression) : Prop :=
  match e with
  | Some (BinaryExpression tok _ _ _) =>
      if strict then q < prec tok else q <= prec tok
  | _ => True
  end.

(** The shape the precedence levels and left-to-right association
    prescribe: at every binary node the operator of the right operand
    binds strictly tighter than the node's (so operators of equal
    precedence nest to the left), the operator of the left operand binds at
    least as tightly, the node's operator is a binary operator, and the
    node is labelled with its text. *)
Fixpoint wellNested (e : Expression) : Prop :=
  match e with
  | BinaryExpression tok l op r =>
      isOperator (Type_ tok) = true /\ op = Literal tok
      /\ rootAbove false (prec tok) l /\ rootAbove true (prec tok) r
      /\ match l with Some l' => wellNested l' | None => False end
      /\ match r with Some r' => wellNested r' | None => False end
  | _ => True
  end.

(** What a tree reads as from left to right: operands and operator
    tokens. *)
Inductive item :=
| Operand (e : Expression)
| Operator (tok : Token).

Fixpoint inorder (e : Expression) : list item :=
  match e with
  | BinaryExpression tok (Some l) _ (Some r) =>
      (inorder l ++ Operator tok :: inorder r)%list
  | _ => [Operand e]
  end.

(** [reads p items p']: from [p], the parser meets the operands and
    operator tokens [items], in this order and with nothing between them,
    and is then in [p']. *)
Inductive reads : Parser -> list item -> Parser -> Prop :=
| reads_nil p : reads p [] p
| reads_operand p e p1 o items p' :
    parseOperand p = Some (Some e, p1, o) ->
    reads p1 items p' ->
    reads p (Operand e :: items) p'
| reads_operator p items p' :
    isOperator (Type_ (curToken p)) = true ->
    reads (advance p) items p' ->
    reads p (Operator (curToken p) :: items) p'.

(** What a run of [parseExpression] at level [q] guarantees. *)
Definition climbs (q : Z) (p : Parser) (e : Expression) (p' : Parser) : Prop :=
  wellNested e /\ rootAbove true q (Some e)
  /\ reads p (inorder e) p' /\ continues q p' = false.

(** The state of the loop of [parseExpression] at level [q], which began
    in [p0] and has built [left_] so far. *)
Definition loopInvariant (q : Z) (p0 : Parser) (left_ : Expression)
    (p : Parser) : Prop :=
  wellNested left_ /\ rootAbove true q (Some left_)
  /\ reads p0 (inorder left_) p
  /\ match left_ with
     | BinaryExpression tok _ _ _ => continues (prec tok) p = false
     | _ => True
     end.

(** Induction on expressions, through the optional operands. *)
Fixpoint Expression_induction (P : Expression -> Prop)
    (Hident : forall i, P (Ident i))
    (Hnum : forall tok v, P (NumberLiteral tok v))
    (Hstr : forall tok v, P (StringLiteral tok v))
    (Hbin : forall tok l op r,
        (forall l', l = Some l' -> P l') ->
        (forall r', r = Some r' -> P r') ->
        P (BinaryExpression tok l op r))
    (e : Expression) : P e :=
  match e with
  | Ident i => Hident i
  | NumberLiteral tok v => Hnum tok v
  | StringLiteral tok v => Hstr tok v
  | BinaryExpression tok l op r =>
      Hbin tok l op r
        (match l return forall l', l = Some l' -> P l' with
         | Some x => fun l' E =>
             match E in _ = y return match y with Some z => P z | None => True end with
             | eq_refl => Expression_induction P Hident Hnum Hstr Hbin x
             end
         | None => fun l' E => match E with end
         end)
        (match r return forall r', r = Some r' -> P r' with
         | Some x => fun r' E =>
             match E in _ = y return match y with Some z => P z | None => True end with
             | eq_refl => Expression_induction P Hident Hnum Hstr Hbin x
             end
         | None => fun r' E => match E with end
         end)
  end.

(** Every operator token of a tree binds at least as tightly as a level
    its root is above. *)
Definition allAbove (strict : bool) (q : Z) (items : list item) : Prop :=
  forall t, In (Operator t) items ->
    if strict then q < prec t else q <= prec t.

(** The five levels, from the loosest to the tightest, and the operators
    of each; any other token type has the lowest level. *)
Definition levels : Prop :=
  LOWEST < EQUALS < LESSGREATER /\ LESSGREATER < SUM < PRODUCT
  /\ getPrecedence EQ = EQUALS /\ getPrecedence NOT_EQ = EQUALS
  /\ getPrecedence LT = LESSGREATER /\ getPrecedence GT = LESSGREATER
  /\ getPrecedence LE = LESSGREATER /\ getPrecedence GE = LESSGREATER
  /\ getPrecedence PLUS = SUM /\ getPrecedence MINUS = SUM
  /\ getPrecedence ASTERISK = PRODUCT /\ getPrecedence SLASH = PRODUCT
  /\ (forall t, isOperator t = false -> getPrecedence t = LOWEST).

(** A tree written with all its parentheses. *)
Fixpoint parenthesized (e : Expression) : string :=
  match e with
  | Ident i => Identifier_Value i
  | NumberLiteral _ v => Go.fmt_d v
  | StringLiteral _ v => String quote v ++ String quote EmptyString
  | BinaryExpression _ l op r =>
      let side (x : option Expression) :=
        match x with
        | Some x' => parenthesized x'
        | None => "nil"
        end in
      "(" ++ side l ++ " " ++ op ++ " " ++ side r ++ ")"
  end.

(** [parseExpression(LOWEST)] at the start of a source text. *)
Definition parseSource (fuel : nat) (src : string) : option string :=
  match parseExpression fuel LOWEST (New (lexer.New src) false) with
  | Some (Some e, _, _) => Some (parenthesized e)
  | _ => None
  end.

(** From [p] the tokens form an expression: an operand, then operators
    each followed by an operand, up to a token that does not continue an
    expression. *)
Inductive expressionAt : Parser -> Prop :=
| expressionAt_operand p e p1 o :
    parseOperand p = Some (Some e, p1, o) -> restAt p1 -> expressionAt p
with restAt : Parser -> Prop :=
| restAt_end p : continues LOWEST p = false -> restAt p
| restAt_operator p :
    continues LOWEST p = true -> expressionAt (advance p) -> restAt p.

(** What is left of the input, and the count of tokens other than EOF the
    parser holds. *)
Definition remaining (l : Lexer) : nat :=
  String.length (input l) - position l.

Definition pending (t : Token) : nat :=
  if String.eqb (Type_ t) EOF then 0 else 1.

(** The measure of the parser's progress: no parse can consume more
    tokens than this. *)
Definition weight (p : Parser) : nat :=
  remaining (l p) + pending (peekToken p) + pending (curToken p).

Definition parser_ok (p : Parser) : Prop := lexer_spec.lexer_ok (l p).

(** The parser [k] tokens later. *)
Definition advanced (k : nat) (p : Parser) : Parser := Nat.iter k advance p.

(** The action [m] returns from [p], having consumed some number [k] of
    tokens and nothing else, with a result and a [k] that satisfy [Q]. *)
Definition terminates {A} (m : M A) (p : Parser) (Q : A -> nat -> Prop) : Prop :=
  exists a k o, m p = Some (a, advanced k p, o) /\ Q a k.

(** A well formed parser of measure at most [w]. *)
Definition below (w : nat) (p : Parser) : Prop :=
  parser_ok p /\ (weight p <= w)%nat.

(** One turn of the loop of [ParseProgram] from [p]: [parseStatement]
    consumes [n] tokens; if it returns a statement, [n] is at least 1 and
    the statement is appended; if it returns nil, exactly one more token
    is skipped; then [j] semicolons are skipped. *)
Definition turn (fuel : nat) (acc : list (option Statement)) (p : Parser)
    : Prop :=
  exists r n o j o',
    parseStatement fuel p = Some (r, advanced n p, o)
    /\ match r with
       | Some s =>
           (1 <= n)%nat
           /\ parseProgramStep fuel acc p
              = Some ((acc ++ [Some s])%list, advanced (j + n) p, o')
       | None =>
           parseProgramStep fuel acc p
           = Some (acc, advanced (j + (1 + n)) p, o')
       end.

(** [m'] returns whatever [m] returns: [m] may only stop earlier at a
    recursion bound. *)
Definition refines {A} (m m' : M A) : Prop :=
  forall p r, m p = Some r -> m' p = Some r.

(** A recursion bound that covers the parse of an input. *)
Definition fuelFor (input : string) : nat :=
  4 * (String.length input + 2) + 4.

End parser_spec.

(** ** The interpreter *)

Module interpreter_spec.

Import lexer parser interpreter.

(** An integer-arithmetic expression: integer literals under [+], [-] and
    [*]. *)
Inductive arith : Expression -> Prop :=
| arith_literal tok v : Go.in_int64 v -> arith (NumberLiteral tok v)
| arith_binary tok l op r :
    arith l -> arith r -> op = "+" \/ op = "-" \/ op = "*" ->
    arith (BinaryExpression tok (Some l) op (Some r)).

(** The value of such an expression in the integers. *)
Fixpoint exact (e : Expression) : Z :=
  match e with
  | NumberLiteral _ v => v
  | BinaryExpression _ (Some l) op (Some r) =>
      if String.eqb op "+" then exact l + exact r
      else if String.eqb op "-" then exact l - exact r
      else if String.eqb op "*" then exact l * exact r
      else 0
  | _ => 0
  end.

(** [reached i e d]: the evaluation of [e] in [i] comes to evaluate its
    subexpression [d], everything evaluated before [d] having produced a
    value. *)
Inductive reached (i : Interpreter) : Expression -> Expression -> Prop :=
| reached_here e : reached i e e
| reached_left tok l op r d :
    reached i l d -> reached i (BinaryExpression tok (Some l) op r) d
| reached_right tok l op r d o v :
    evalExpr i l = (o, Returns (Some v)) ->
    reached i r d ->
    reached i (BinaryExpression tok (Some l) op (Some r)) d.

(** The printed lines among the events. *)
Definition printed (out : list Event) : list string :=
  flat_map (fun e => match e with Println s => [s] | _ => [] end) out.

(** The three statements that enclose an expression. *)
Definition printOf (tok : Token) (e : Expression) : Statement :=
  PrintStmt (Some (mkPrintStatement tok (Some e))).

Definition assignmentOf (tok : Token) (name : Identifier) (e : Expression)
    : Statement :=
  AssignmentStmt (Some (mkAssignmentStatement tok (Some name) (Some e))).

Definition ifOf (tok : Token) (e : Expression)
    (consequence : BlockStatement) (alternative : option BlockStatement)
    : Statement :=
  IfStmt (Some (mkIfStatement tok (Some e) (Some consequence) alternative)).

Definition anyToken : Token :=
  {| Type_ := ILLEGAL; Literal := EmptyString; Line := 1; Column := 1 |}.

(** [encloses s tok e msg]: the statement [s], of token [tok], evaluates
    the expression [e] and reports its failure with [msg]. *)
Inductive encloses : Statement -> Token -> Expression -> string -> Prop :=
| encloses_print tok e :
    encloses (printOf tok e) tok e "Invalid expression in print "
| encloses_assignment tok name e :
    encloses (assignmentOf tok name e) tok e
      "Invalid expression in assignment "
| encloses_if tok e consequence alternative :
    encloses (ifOf tok e consequence alternative) tok e
      "Invalid condition in if ".

Definition literal (v : Z) : Expression := NumberLiteral anyToken v.

Definition binary (l : Expression) (op : string) (r : Expression) : Expression :=
  BinaryExpression anyToken (Some l) op (Some r).

(** A property holds of the statements of a list, and of a block. *)
Definition allStatements (P : Statement -> Prop)
    (stmts : list (option Statement)) : Prop :=
  Forall (fun x => match x with Some s => P s | None => True end) stmts.

Definition inBlock (P : Statement -> Prop) (b : option BlockStatement) : Prop :=
  match b with
  | Some (mkBlockStatement _ stmts) => allStatements P stmts
  | None => True
  end.

(** Induction on statements, through the blocks of an if statement. *)
Fixpoint Statement_induction (P : Statement -> Prop)
    (Hprint : forall s, P (PrintStmt s))
    (Hassignment : forall s, P (AssignmentStmt s))
    (Hblock : forall b, P (BlockStmt b))
    (Hnil : P (IfStmt None))
    (Hif : forall tok condition consequence alternative,
        inBlock P consequence -> inBlock P alternative ->
        P (IfStmt (Some (mkIfStatement tok condition consequence alternative))))
    (s : Statement) : P s :=
  let block (b : option BlockStatement) : inBlock P b :=
    match b return inBlock P b with
    | Some (mkBlockStatement _ stmts) =>
        (fix go (ss : list (option Statement)) : allStatements P ss :=
           match ss return allStatements P ss with
           | [] => @List.Forall_nil _ _
           | x :: rest =>
               @List.Forall_cons _ _ x rest
                 (match x return match x with Some s => P s | None => True end with
                  | Some s' =>
                      Statement_induction P Hprint Hassignment Hblock Hnil Hif s'
                  | None => I
                  end)
                 (go rest)
           end) stmts
    | None => I
    end in
  match s with
  | PrintStmt x => Hprint x
  | AssignmentStmt x => Hassignment x
  | BlockStmt b => Hblock b
  | IfStmt None => Hnil
  | IfStmt (Some (mkIfStatement tok condition consequence alternative)) =>
      Hif tok condition consequence alternative
        (block consequence) (block alternative)
  end.

End interpreter_spec.

(** * Properties *)

(** ** The lexer *)

Module lexer_facts.

Import lexer lexer_spec.

Lemma readChar_fields l :
  input (readChar l) = input l
  /\ position (readChar l) = readPosition l
  /\ readPosition (readChar l) = S (readPosition l)
  /\ ch (readChar l) =
       (if (String.length (input l) <=? readPosition l)%nat then zero
        else Go.index (input l) (readPosition l)).
Proof.
  unfold readChar.
  destruct (Ascii.eqb _ newline); [|destruct (negb _)]; simpl; auto.
Qed.

Lemma readChar_ok l : lexer_ok (readChar l).
Proof.
  destruct (readChar_fields l) as (Hi & Hp & Hr & Hc).
  unfold lexer_ok. now rewrite Hi, Hp, Hr, Hc.
Qed.

Lemma readChar_input l : input (readChar l) = input l.
Proof. apply readChar_fields. Qed.

Lemma readChar_position l : position (readChar l) = readPosition l.
Proof. apply readChar_fields. Qed.

Lemma New_ok inp : lexer_ok (New inp).
Proof. apply readChar_ok. Qed.

Lemma New_input inp : input (New inp) = inp.
Proof. unfold New. now rewrite readChar_input. Qed.

Lemma ok_zero_exhausted l :
  lexer_ok l -> exhausted l -> ch l = zero.
Proof.
  intros [_ Hc] He. rewrite Hc.
  apply Nat.leb_le in He. now rewrite He.
Qed.

Lemma readChar_step l :
  lexer_ok l -> position (readChar l) = S (position l).
Proof. intros [Hr _]. now rewrite readChar_position. Qed.

(** What a loop [for test(l.ch) { l.readChar() }] does to the state. *)
Lemma readWhile_facts test n l :
  lexer_ok l ->
  let l' := readWhile n test l in
  lexer_ok l' /\ input l' = input l /\ (position l <= position l')%nat.
Proof.
  revert l. induction n as [|n IH]; intros l Hok; simpl.
  - auto with arith.
  - destruct (test (ch l)).
    + destruct (IH (readChar l) (readChar_ok l)) as (H1 & H2 & H3).
      rewrite readChar_input in H2. rewrite readChar_step in H3 by assumption.
      split; [assumption | split; [assumption | lia]].
    + auto with arith.
Qed.

(** The loop leaves by its own test when its bound exceeds what is left
    of the input: the bound does not cut it short. *)
Lemma readWhile_exit test n l :
  test zero = false ->
  lexer_ok l ->
  (String.length (input l) - position l < n)%nat ->
  test (ch (readWhile n test l)) = false.
Proof.
  intros Hz. revert l. induction n as [|n IH]; intros l Hok Hn; [lia|].
  simpl. destruct (test (ch l)) eqn:Et; [|assumption].
  assert (position l < String.length (input l))%nat as Hlt.
  { destruct (Nat.le_gt_cases (String.length (input l)) (position l)) as [Hge|]; [|assumption].
    rewrite (ok_zero_exhausted l Hok Hge) in Et. congruence. }
  apply IH; [apply readChar_ok|].
  rewrite readChar_input, readChar_step by assumption. lia.
Qed.

Lemma loopBound_enough l :
  lexer_ok l -> (String.length (input l) - position l < loopBound l)%nat.
Proof. intros [Hr _]. unfold loopBound. rewrite Hr. lia. Qed.

(** A loop entered with its test true reads at least one character. *)
Lemma readWhile_progress test n l :
  lexer_ok l -> test (ch l) = true ->
  (position l < position (readWhile (S n) test l))%nat.
Proof.
  intros Hok Ht. simpl. rewrite Ht.
  destruct (readWhile_facts test n (readChar l) (readChar_ok l)) as (_ & _ & H).
  rewrite readChar_step in H by assumption. lia.
Qed.

(** A loop that stops at the byte 0 does not pass the end of the input. *)
Lemma readWhile_within test n l :
  test zero = false -> lexer_ok l ->
  (position l <= String.length (input l))%nat ->
  (position (readWhile n test l) <= String.length (input l))%nat.
Proof.
  intros Hz. revert l. induction n as [|n IH]; intros l Hok Hle; simpl; [assumption|].
  destruct (test (ch l)) eqn:Et; [|assumption].
  assert (position l < String.length (input l))%nat as Hlt.
  { destruct (Nat.le_gt_cases (String.length (input l)) (position l)) as [Hge|]; [|assumption].
    rewrite (ok_zero_exhausted l Hok Hge) in Et. congruence. }
  rewrite <- (readChar_input l). apply IH; [apply readChar_ok|].
  rewrite readChar_input, readChar_step by assumption. lia.
Qed.

Lemma not_zero_within l :
  lexer_ok l -> ch l <> zero -> (position l < String.length (input l))%nat.
Proof.
  intros Hok Hc.
  destruct (Nat.le_gt_cases (String.length (input l)) (position l)) as [Hge|]; [|assumption].
  now rewrite (ok_zero_exhausted l Hok Hge) in Hc.
Qed.

(** The slices that [readIdentifier], [readNumber] and [readString] take
    of the input are within its bounds. *)
Lemma readWhile_slice test l :
  test zero = false -> lexer_ok l ->
  (position l <= String.length (input l))%nat ->
  let l' := readWhile (loopBound l) test l in
  input l' = input l /\ sliceInRange (input l') (position l) (position l').
Proof.
  intros Hz Hok Hle l'.
  destruct (readWhile_facts test (loopBound l) l Hok) as (_ & Hi & Hp).
  split; [exact Hi|]. unfold sliceInRange. fold l' in Hi, Hp. rewrite Hi.
  split; [exact Hp | now apply readWhile_within].
Qed.

Lemma readIdentifier_slice l :
  lexer_ok l -> ch l <> zero ->
  let l' := snd (readIdentifier l) in
  fst (readIdentifier l) = Go.slice (input l') (position l) (position l')
  /\ sliceInRange (input l') (position l) (position l').
Proof.
  intros Hok Hc. unfold readIdentifier. cbn [fst snd]. split; [reflexivity|].
  apply readWhile_slice; [reflexivity | assumption |].
  pose proof (not_zero_within l Hok Hc). lia.
Qed.

Lemma readNumber_slice l :
  lexer_ok l -> ch l <> zero ->
  let l' := snd (readNumber l) in
  fst (readNumber l) = Go.slice (input l') (position l) (position l')
  /\ sliceInRange (input l') (position l) (position l').
Proof.
  intros Hok Hc. unfold readNumber. cbn [fst snd]. split; [reflexivity|].
  apply readWhile_slice; [reflexivity | assumption |].
  pose proof (not_zero_within l Hok Hc). lia.
Qed.

Lemma readString_slice l :
  lexer_ok l -> ch l <> zero ->
  exists hi,
    fst (readString l) = Go.slice (input l) (S (position l)) hi
    /\ sliceInRange (input l) (S (position l)) hi.
Proof.
  intros Hok Hc. unfold readString.
  pose proof (not_zero_within l Hok Hc) as Hlt.
  destruct (readWhile_slice inString (readChar l) eq_refl (readChar_ok l)) as (Hi & Hs).
  { rewrite readChar_input, readChar_step by assumption. lia. }
  rewrite readChar_input in Hi. rewrite Hi in Hs.
  rewrite readChar_step in * by assumption.
  exists (position (readWhile (loopBound (readChar l)) inString (readChar l))).
  split; [|exact Hs].
  destruct (Ascii.eqb _ zero); cbn [fst]; now rewrite Hi.
Qed.

Lemma skipWhitespace_facts l :
  lexer_ok l ->
  let l' := skipWhitespace l in
  lexer_ok l' /\ input l' = input l /\ (position l <= position l')%nat
  /\ isWhitespace (ch l') = false.
Proof.
  intros Hok. unfold skipWhitespace.
  destruct (readWhile_facts isWhitespace (loopBound l) l Hok) as (H1 & H2 & H3).
  split; [assumption | split; [assumption | split; [assumption |]]].
  apply readWhile_exit; auto using loopBound_enough.
Qed.

(** After [skipComment] the lexer is not at the start of a comment. *)
Lemma skipComment_facts l :
  lexer_ok l ->
  let l' := skipComment l in
  lexer_ok l' /\ input l' = input l /\ (position l <= position l')%nat
  /\ Ascii.eqb (ch l') "/" && Ascii.eqb (peekChar l') "/" = false.
Proof.
  intros Hok. unfold skipComment.
  destruct (Ascii.eqb (ch l) "/" && Ascii.eqb (peekChar l) "/") eqn:E; cbv zeta.
  - destruct (readWhile_facts inComment (loopBound l) l Hok) as (H1 & H2 & H3).
    split; [assumption | split; [assumption | split; [assumption |]]].
    assert (inComment (ch (readWhile (loopBound l) inComment l)) = false) as Hx
      by (apply readWhile_exit; auto using loopBound_enough).
    destruct (Ascii.eqb_spec (ch (readWhile (loopBound l) inComment l)) "/") as [Heq|]; [|reflexivity].
    rewrite Heq in Hx. discriminate Hx.
  - auto with arith.
Qed.

Lemma reaches_refl l : lexer_ok l -> reaches l l.
Proof. unfold reaches. auto with arith. Qed.

Lemma reaches_trans l1 l2 l3 : reaches l1 l2 -> reaches l2 l3 -> reaches l1 l3.
Proof.
  intros (H1 & H2 & H3) (H4 & H5 & H6).
  split; [assumption | split; [congruence | lia]].
Qed.

Lemma reaches_advances l1 l2 l3 : reaches l1 l2 -> advances l2 l3 -> advances l1 l3.
Proof.
  intros (H1 & H2 & H3) (H4 & H5 & H6).
  split; [assumption | split; [congruence | lia]].
Qed.

Lemma advances_reaches l1 l2 l3 : advances l1 l2 -> reaches l2 l3 -> advances l1 l3.
Proof.
  intros (H1 & H2 & H3) (H4 & H5 & H6).
  split; [assumption | split; [congruence | lia]].
Qed.

Lemma advances_le l l' : advances l l' -> reaches l l'.
Proof.
  intros (H1 & H2 & H3). split; [assumption | split; [assumption | lia]].
Qed.

Lemma advances_readChar l : lexer_ok l -> advances l (readChar l).
Proof.
  intros Hok. split; [apply readChar_ok | split; [apply readChar_input |]].
  rewrite readChar_step by assumption. lia.
Qed.

Lemma reaches_readWhile test n l : lexer_ok l -> reaches l (readWhile n test l).
Proof. intros Hok. apply readWhile_facts, Hok. Qed.

Lemma advances_readWhile test l :
  lexer_ok l -> test (ch l) = true -> advances l (readWhile (loopBound l) test l).
Proof.
  intros Hok Ht. destruct (reaches_readWhile test (loopBound l) l Hok) as (H1 & H2 & _).
  split; [assumption | split; [assumption |]].
  unfold loopBound. now apply readWhile_progress.
Qed.

Lemma advances_ok l l' : advances l l' -> lexer_ok l'.
Proof. now intros []. Qed.

Lemma advances_readString l : lexer_ok l -> advances l (snd (readString l)).
Proof.
  intros Hok. unfold readString.
  pose proof (advances_readChar l Hok) as H1.
  pose proof (reaches_readWhile inString (loopBound (readChar l)) (readChar l)
                (readChar_ok l)) as H2.
  destruct (Ascii.eqb _ zero); simpl.
  - eapply advances_reaches; eassumption.
  - eapply advances_reaches; [eassumption|].
    eapply reaches_trans; [eassumption|].
    apply advances_le, advances_readChar, H2.
Qed.

Lemma advances_twoChar t l :
  lexer_ok l -> advances l (readChar (snd (twoChar t l))).
Proof.
  intros Hok. simpl.
  eapply advances_reaches; [apply advances_readChar, Hok|].
  apply advances_le, advances_readChar, readChar_ok.
Qed.

(** The body of [NextToken] returns a token within its first unfolding:
    the recursive call of the [//] case is never reached, since
    [skipComment] has just left any comment. *)
Lemma NextTokenFuel_total l :
  lexer_ok l ->
  exists tok l',
    (forall n, NextTokenFuel (S n) l = Some (tok, l')) /\ advances l l'.
Proof.
  intros Hok.
  destruct (skipWhitespace_facts l Hok) as (Hw1 & Hw2 & Hw3 & _).
  destruct (skipComment_facts _ Hw1) as (Hc1 & Hc2 & Hc3 & Hdead).
  assert (reaches l (skipComment (skipWhitespace l))) as Hr
    by (split; [assumption | split; [congruence | lia]]).
  cbn [NextTokenFuel].
  set (l1 := skipComment (skipWhitespace l)) in *. cbv zeta.
  repeat match goal with
         | |- context [if Ascii.eqb ?a ?b then _ else _] =>
             destruct (Ascii.eqb a b) eqn:?
         end.
  all: try discriminate Hdead.
  all: try (eexists _, _; split; [intros; reflexivity|];
         eapply reaches_advances; [exact Hr|];
         first [ apply advances_twoChar, Hc1
               | apply advances_readChar, Hc1 ]).
  - destruct (readString l1) as [s l2] eqn:Es.
    eexists _, _; split; [intros; reflexivity|].
    eapply reaches_advances; [exact Hr|].
    change l2 with (snd (s, l2)). rewrite <- Es. apply advances_readString, Hc1.
  - unfold readIdentifier, readNumber.
    destruct (isLetter (ch l1)) eqn:El; [|destruct (isDigit (ch l1)) eqn:Ed].
    + eexists _, _; split; [intros; reflexivity|].
      eapply reaches_advances; [exact Hr|].
      apply advances_readWhile; [exact Hc1|]. now rewrite El.
    + eexists _, _; split; [intros; reflexivity|].
      eapply reaches_advances; [exact Hr|].
      apply advances_readWhile; [exact Hc1|]. exact Ed.
    + eexists _, _; split; [intros; reflexivity|].
      eapply reaches_advances; [exact Hr|].
      apply advances_readChar, Hc1.
Qed.

Lemma NextToken_fuel n l :
  lexer_ok l -> NextTokenFuel (S n) l = Some (NextToken l).
Proof.
  intros Hok. unfold NextToken, loopBound.
  destruct (NextTokenFuel_total l Hok) as (t & l' & E & _).
  now rewrite !E.
Qed.

Lemma NextToken_advances l : lexer_ok l -> advances l (snd (NextToken l)).
Proof.
  intros Hok. destruct (NextTokenFuel_total l Hok) as (t & l' & E & H).
  specialize (E 0%nat).
  rewrite NextToken_fuel in E by assumption. injection E as E. now rewrite E.
Qed.

Lemma NextToken_ok l : lexer_ok l -> lexer_ok (snd (NextToken l)).
Proof. intros Hok. apply (NextToken_advances l Hok). Qed.

(** Past the end of the input the token is EOF. *)
Lemma NextToken_exhausted l :
  lexer_ok l -> exhausted l ->
  Type_ (fst (NextToken l)) = EOF /\ exhausted (snd (NextToken l)).
Proof.
  intros Hok He.
  assert (ch l = zero) as Hz by now apply ok_zero_exhausted.
  split.
  - assert (NextTokenFuel 1 l = Some (NextToken l)) as E by now apply NextToken_fuel.
    cbn [NextTokenFuel] in E.
    assert (skipWhitespace l = l) as Ew
      by (unfold skipWhitespace, loopBound; simpl; now rewrite Hz).
    rewrite Ew in E.
    assert (skipComment l = l) as Ec by (unfold skipComment; now rewrite Hz).
    rewrite Ec in E. cbv zeta in E. rewrite Hz in E. simpl in E.
    injection E as E. now rewrite <- E.
  - destruct (NextToken_advances l Hok) as (_ & Hi & Hp).
    unfold exhausted in *. rewrite Hi. lia.
Qed.

Lemma lexerAfter_ok inp n : lexer_ok (lexerAfter inp n).
Proof.
  induction n as [|n IH]; simpl.
  - apply New_ok.
  - apply NextToken_ok, IH.
Qed.

Lemma lexerAfter_input inp n : input (lexerAfter inp n) = inp.
Proof.
  induction n as [|n IH]; simpl.
  - apply New_input.
  - destruct (NextToken_advances _ (lexerAfter_ok inp n)) as (_ & Hi & _).
    unfold lexerAfter in *. simpl. congruence.
Qed.

Lemma lexerAfter_exhausted inp n m :
  (n <= m)%nat -> exhausted (lexerAfter inp n) -> exhausted (lexerAfter inp m).
Proof.
  intros Hle He. induction Hle as [|m Hle IH]; [assumption|].
  apply (NextToken_exhausted _ (lexerAfter_ok inp m) IH).
Qed.


(** Once the input is exhausted, every call returns EOF and leaves it
    exhausted. *)
Lemma exhausted_EOF inp n m :
  exhausted (lexerAfter inp n) -> (n <= m)%nat ->
  Type_ (nthToken inp m) = EOF /\ exhausted (lexerAfter inp (S m)).
Proof.
  intros He Hle.
  apply (NextToken_exhausted _ (lexerAfter_ok inp m)).
  now apply (lexerAfter_exhausted inp n m).
Qed.


(** C9. On every input, every call of [NextToken] returns one token (its
    recursion bound is never reached, whatever the bound), leaves the
    lexer on the same input at a strictly greater position, and once the
    position is past the end of the input this call and every later one
    return an EOF token. *)
Theorem NextToken_contract (inp : string) (n : nat) :
  let l := lexerAfter inp n in
  (forall fuel, NextTokenFuel (S fuel) l = Some (NextToken l))
  /\ input (snd (NextToken l)) = inp
  /\ (position l < position (snd (NextToken l)))%nat
  /\ (exhausted l ->
      forall m, (n <= m)%nat ->
        Type_ (nthToken inp m) = EOF /\ exhausted (lexerAfter inp (S m))).
Proof.
  intros l0. pose proof (lexerAfter_ok inp n) as Hok. fold l0 in Hok.
  destruct (NextToken_advances l0 Hok) as (_ & Hi & Hp).
  split; [intros fuel; now apply NextToken_fuel|].
  split; [rewrite Hi; apply lexerAfter_input|].
  split; [assumption|].
  intros He m Hle. now apply (exhausted_EOF inp n m).
Qed.

Lemma NextToken_contract_witness :
  exhausted (lexerAfter "ab" 1) /\ Type_ (nthToken "ab" 3) = EOF.
Proof.
  assert (exhausted (lexerAfter "ab" 1)) as H by (vm_compute; lia).
  split; [exact H|].
  apply (NextToken_contract "ab" 1); [exact H | lia].
Defined.

(** The byte 0 stands for the end of the input inside the lexer, so a
    byte 0 in the input is returned as an EOF token too, before the input
    is exhausted; the tokens after it follow. *)
Lemma zero_byte_is_EOF_token :
  let inp := String "a" (String zero (String "b" EmptyString)) in
  map Type_ (tokens 4 (New inp)) = [IDENT; EOF; IDENT; EOF]
  /\ ~ exhausted (lexerAfter inp 2).
Proof.
  cbv zeta. split; [vm_compute; reflexivity|].
  unfold exhausted. vm_compute. lia.
Qed.

(** C3. On the input [ab == 10], newline, [c], the identifier [ab], whose
    first character is at line 1, column 1, is returned with line 1,
    column 4; the operator [==], at line 1, column 4, with column 6; the
    literal [10], at line 1, column 7, with line 2, column 1; the
    identifier [c], at line 2, column 1, with column 2.  The last component
    is the lexer's own line and column on the first character of the
    token, which [NextToken] first stores in the token and then
    overwrites.  That counter is itself one ahead of the column counted
    from 1: the token [+] that begins an input is returned with column
    2. *)
Theorem token_position_is_not_first_character :
  positions sample 0 = (IDENT, "ab", (1, 4), (1, 1), (1, 2))
  /\ positions sample 1 = (EQ, "==", (1, 6), (1, 4), (1, 5))
  /\ positions sample 2 = (INT, "10", (2, 1), (1, 7), (1, 8))
  /\ positions sample 3 = (IDENT, "c", (2, 2), (2, 1), (2, 2))
  /\ positions "+" 0 = (PLUS, "+", (1, 2), (1, 1), (1, 2)).
Proof. repeat split; vm_compute; reflexivity. Qed.

End lexer_facts.

(** ** The parser *)

Module parser_facts.

Import lexer parser parser_spec.

Lemma bind_inv {A B} (m : M A) (k : A -> M B) p b p2 o :
  bind m k p = Some (b, p2, o) ->
  exists a p1 o1 o2,
    m p = Some (a, p1, o1) /\ k a p1 = Some (b, p2, o2) /\ o = (o1 ++ o2)%list.
Proof.
  unfold bind. destruct (m p) as [[[a p1] o1]|]; [|discriminate].
  destruct (k a p1) as [[[b' p2'] o2]|] eqn:Ek; [|discriminate].
  intros H. injection H as <- <- <-. exists a, p1, o1, o2. auto.
Qed.

(** Inversion of a run of a parser action, one [bind] at a time. *)
Ltac run_inv H :=
  repeat match type of H with
         | bind _ _ _ = Some _ =>
             let a := fresh "a" in let p1 := fresh "p" in
             let o1 := fresh "o" in let o2 := fresh "o" in
             let H1 := fresh "Hrun" in let Ho := fresh "Hout" in
             apply bind_inv in H;
             destruct H as (a & p1 & o1 & o2 & H1 & H & Ho)
         end.

Ltac prim_inv :=
  repeat match goal with
         | H : cur _ = Some _ |- _ =>
             unfold cur, get in H; injection H as <- <- <-
         | H : get _ _ = Some _ |- _ => unfold get in H; injection H as <- <- <-
         | H : ret _ _ = Some _ |- _ => unfold ret in H; injection H as <- <- <-
         | H : nextToken _ = Some _ |- _ =>
             unfold nextToken in H; injection H as <- <- <-
         | H : emit _ _ = Some _ |- _ => unfold emit in H; injection H as <- <- <-
         | H : errorAtCur _ _ = Some _ |- _ =>
             unfold errorAtCur, bind, cur, get, emit in H;
             injection H as <- <- <-
         end.

Lemma parsePrimary_inv p e p1 o :
  parsePrimary p = Some (Some e, p1, o) ->
  p1 = advance p /\ o = []
  /\ match e with BinaryExpression _ _ _ _ => False | _ => True end.
Proof.
  unfold parsePrimary. intros H. run_inv H. prim_inv.
  repeat match type of H with
         | (if ?b then _ else _) _ = _ => destruct b
         | match ?x with _ => _ end _ = _ => destruct x
         end; run_inv H; prim_inv; try discriminate; subst; auto.
Qed.

(** An operand is a literal or an identifier, read off one token, or two
    for a negated literal. *)
Lemma parseOperand_inv p e p1 o :
  parseOperand p = Some (Some e, p1, o) ->
  (p1 = advance p \/ p1 = advance (advance p)) /\ o = []
  /\ match e with BinaryExpression _ _ _ _ => False | _ => True end.
Proof.
  unfold parseOperand. intros H. run_inv H. prim_inv.
  destruct (String.eqb (Type_ (curToken p)) MINUS).
  - run_inv H. prim_inv.
    repeat match type of H with
           | (if ?b then _ else _) _ = _ => destruct b
           | match ?x with _ => _ end _ = _ => destruct x
           end; run_inv H; prim_inv; try discriminate; subst; auto.
  - apply parsePrimary_inv in H. destruct H as (-> & -> & He). auto.
Qed.

Lemma atom_wellNested e :
  match e with BinaryExpression _ _ _ _ => False | _ => True end ->
  wellNested e /\ inorder e = [Operand e]
  /\ forall s q, rootAbove s q (Some e).
Proof. destruct e; simpl; intuition. Qed.

Lemma reads_app p a p1 b p2 :
  reads p a p1 -> reads p1 b p2 -> reads p (a ++ b) p2.
Proof.
  induction 1; intros Hb; simpl; [assumption | |].
  - eapply reads_operand; eauto.
  - apply reads_operator; auto.
Qed.

(** The two tests of the loop at different levels differ only in the
    comparison of precedences. *)
Lemma continues_level q1 q2 p :
  continues q1 p = true -> continues q2 p = false ->
  getCurrentPrecedence p <= q2.
Proof.
  unfold continues. intros H1 H2.
  repeat match type of H1 with
         | _ && _ = true => apply andb_prop in H1; destruct H1 as [H1 ?]
         end.
  repeat match goal with
         | H : ?b = true |- _ => rewrite H in H2
         end.
  simpl in H2. rewrite andb_false_r in H2 || idtac.
  destruct (Z.ltb_spec q2 (getCurrentPrecedence p)); [|assumption].
  discriminate.
Qed.

Lemma continues_true q p :
  continues q p = true ->
  q < getCurrentPrecedence p /\ isOperator (Type_ (curToken p)) = true.
Proof.
  unfold continues. intros H.
  apply andb_prop in H. destruct H as [H Ho].
  apply andb_prop in H. destruct H as [_ H].
  apply Z.ltb_lt in H. auto.
Qed.

Lemma precedence_climbing fuel :
  (forall q p e p' o,
      parseExpression fuel q p = Some (Some e, p', o) -> climbs q p e p')
  /\ (forall q left_ p0 p e p' o,
        loopInvariant q p0 left_ p ->
        parseExpressionLoop fuel q left_ p = Some (Some e, p', o) ->
        climbs q p0 e p').
Proof.
  induction fuel as [|fuel [IHe IHl]]; (split; [intros q p e p' o H | intros q left_ p0 p e p' o Hinv H]);
    try discriminate.
  - (* parseExpression *)
    cbn [parseExpression] in H. run_inv H.
    destruct a as [left_|]; [|prim_inv; discriminate].
    pose proof (parseOperand_inv _ _ _ _ Hrun) as (_ & _ & Hatom).
    destruct (atom_wellNested _ Hatom) as (Hw & Hin & Hroot).
    eapply IHl; [|exact H].
    split; [assumption | split; [apply Hroot | split]].
    + rewrite Hin. eapply reads_operand; [exact Hrun | apply reads_nil].
    + destruct left_; simpl in Hatom; tauto.
  - (* the loop *)
    cbn [parseExpressionLoop] in H.
    destruct Hinv as (Hw & Hroot & Hreads & Hlast).
    run_inv H. prim_inv.
    destruct (continues q p) eqn:Hc.
    + run_inv H. prim_inv.
      destruct a1 as [right_|]; [|run_inv H; prim_inv; discriminate].
      apply IHe in Hrun1. destruct Hrun1 as (Hw' & Hroot' & Hreads' & Hstop).
      destruct (continues_true _ _ Hc) as (Hlt & Hop).
      eapply IHl; [|exact H].
      split; [|split; [|split]].
      * simpl. split; [assumption | split; [reflexivity | split; [|split; [|split]]]];
          try assumption.
        destruct left_; simpl; auto.
        eapply continues_level; eassumption.
      * simpl. exact Hlt.
      * simpl. eapply reads_app; [exact Hreads|].
        apply reads_operator; assumption.
      * exact Hstop.
    + prim_inv. split; [assumption | split; [assumption | split; assumption]].
Qed.

Lemma allAbove_weaken s q q' items :
  q' <= q -> allAbove true q items -> allAbove s q' items.
Proof.
  intros Hle H t Ht. specialize (H t Ht). simpl in H. destruct s; lia.
Qed.

Lemma wellNested_allAbove e :
  wellNested e -> forall s q, rootAbove s q (Some e) -> allAbove s q (inorder e).
Proof.
  induction e as [i|tok v|tok v|tok l op r IHl IHr] using Expression_induction;
    intros Hw s q Hroot t Ht; simpl in Ht;
    try (destruct Ht as [Ht|[]]; discriminate).
  simpl in Hw. destruct Hw as (_ & _ & Hl & Hr & Hwl & Hwr).
  destruct l as [l|]; [|contradiction]. destruct r as [r|]; [|contradiction].
  apply in_app_or in Ht. simpl in Hroot.
  destruct Ht as [Ht|[Ht|Ht]].
  - pose proof (IHl l eq_refl Hwl false (prec tok) Hl t Ht) as H. simpl in H.
    destruct s; lia.
  - injection Ht as <-. exact Hroot.
  - pose proof (IHr r eq_refl Hwr true (prec tok) Hr t Ht) as H. simpl in H.
    destruct s; lia.
Qed.

Lemma wellNested_binary_inorder tok l op r :
  wellNested (BinaryExpression tok l op r) ->
  exists l' r', l = Some l' /\ r = Some r' /\ op = Literal tok
    /\ wellNested l' /\ wellNested r'
    /\ allAbove false (prec tok) (inorder l')
    /\ allAbove true (prec tok) (inorder r')
    /\ inorder (BinaryExpression tok l op r)
       = (inorder l' ++ Operator tok :: inorder r')%list.
Proof.
  simpl. intros (_ & Hop & Hl & Hr & Hwl & Hwr).
  destruct l as [l|]; [|contradiction]. destruct r as [r|]; [|contradiction].
  exists l, r. repeat split; auto using wellNested_allAbove.
Qed.

Lemma operand_not_split xs t ys e :
  (xs ++ Operator t :: ys)%list = [Operand e] -> False.
Proof.
  intros E.
  assert (In (Operator t) [Operand e]) as [H|[]]
    by (rewrite <- E; apply in_or_app; right; now left).
  discriminate.
Qed.

(** The operands and operators, read from left to right, determine the
    well nested tree: precedence and left-to-right association leave no
    choice. *)
Lemma wellNested_unique e1 :
  forall e2, wellNested e1 -> wellNested e2 ->
    inorder e1 = inorder e2 -> e1 = e2.
Proof.
  induction e1 as [i|tok v|tok v|tok l op r IHl IHr] using Expression_induction;
    intros e2 H1 H2 E.
  1-3: destruct e2 as [| | |tok2 l2 op2 r2]; simpl in E; try congruence;
       destruct (wellNested_binary_inorder _ _ _ _ H2)
         as (l' & r' & -> & -> & _ & _ & _ & _ & _ & _);
       simpl in E; symmetry in E; now apply operand_not_split in E.
  destruct (wellNested_binary_inorder _ _ _ _ H1)
    as (l1 & r1 & -> & -> & -> & Hwl1 & Hwr1 & Hal1 & Har1 & E1).
  rewrite E1 in E. clear E1.
  destruct e2 as [| | |tok2 l2 op2 r2].
  1-3: simpl in E; now apply operand_not_split in E.
  destruct (wellNested_binary_inorder _ _ _ _ H2)
    as (l2' & r2' & -> & -> & -> & Hwl2 & Hwr2 & Hal2 & Har2 & E2).
  rewrite E2 in E. clear E2.
  apply app_eq_app in E. destruct E as (m & [[Ea Eb]|[Ea Eb]]).
  - destruct m as [|x m].
    + simpl in Eb. rewrite app_nil_r in Ea. injection Eb as Et Er. subst tok2.
      f_equal; f_equal; [apply IHl | apply IHr]; auto.
    + simpl in Eb. injection Eb as Ex Eb. subst x.
      assert (prec tok <= prec tok2) as Ha.
      { apply (Hal1 tok2). rewrite Ea. apply in_or_app. right. now left. }
      assert (prec tok2 < prec tok) as Hb.
      { apply (Har2 tok). rewrite Eb. apply in_or_app. right. now left. }
      lia.
  - destruct m as [|x m].
    + simpl in Eb. rewrite app_nil_r in Ea. injection Eb as Et Er. subst tok2.
      f_equal; f_equal; [apply IHl | apply IHr]; auto.
    + simpl in Eb. injection Eb as Ex Eb. subst x.
      assert (prec tok2 <= prec tok) as Ha.
      { apply (Hal2 tok). rewrite Ea. apply in_or_app. right. now left. }
      assert (prec tok < prec tok2) as Hb.
      { apply (Har1 tok2). rewrite Eb. apply in_or_app. right. now left. }
      lia.
Qed.

Lemma precedence_levels : levels.
Proof.
  unfold levels. repeat (split; [reflexivity || (vm_compute; split; reflexivity)|]).
  intros t. unfold isOperator, getPrecedence, precedences, lookup_prec.
  repeat match goal with
         | |- context [String.eqb t ?x] => destruct (String.eqb t x)
         end; simpl; intros H; try discriminate; reflexivity.
Qed.

(** C7. Whenever [parseExpression], called at a precedence level, returns
    an expression: the levels are ordered equality below relational below
    additive below multiplicative; the tree is well nested (at each binary
    node the operator of the right operand binds strictly tighter, so
    equal precedences associate to the left, and that of the left operand
    at least as tightly); its root binds tighter than the level of the
    call; read from left to right it is exactly the operands and operators
    the parser consumed; the token it stopped at does not continue the
    expression; and it is the only well nested tree over these operands
    and operators. *)
Theorem parseExpression_precedence fuel precedence p e p' o :
  parseExpression fuel precedence p = Some (Some e, p', o) ->
  levels
  /\ wellNested e /\ rootAbove true precedence (Some e)
  /\ reads p (inorder e) p'
  /\ continues precedence p' = false
  /\ (forall e', wellNested e' -> inorder e' = inorder e -> e' = e).
Proof.
  intros H. destruct (precedence_climbing fuel) as [Hc _].
  destruct (Hc _ _ _ _ _ H) as (Hw & Hr & Hreads & Hstop).
  split; [apply precedence_levels|].
  repeat (split; [assumption|]).
  intros e' Hw' E. now apply wellNested_unique.
Qed.

Lemma parseExpression_precedence_witness :
  parseSource 10 "a - b - c" = Some "((a - b) - c)"
  /\ exists e p' o,
      parseExpression 10 LOWEST (New (lexer.New "a - b - c") false)
      = Some (Some e, p', o)
      /\ wellNested e /\ reads (New (lexer.New "a - b - c") false) (inorder e) p'.
Proof.
  split; [vm_compute; reflexivity|].
  destruct (parseExpression 10 LOWEST (New (lexer.New "a - b - c") false))
    as [[[[e|] p'] o]|] eqn:E; try (vm_compute in E; discriminate).
  exists e, p', o. split; [reflexivity|].
  destruct (parseExpression_precedence _ _ _ _ _ _ E) as (_ & Hw & _ & Hr & _).
  split; assumption.
Defined.

(** The examples of C7, and the levels against each other. *)
Lemma parseExpression_examples :
  parseSource 10 "a - b - c" = Some "((a - b) - c)"
  /\ parseSource 10 "a + b * c" = Some "(a + (b * c))"
  /\ parseSource 10 "a * b + c" = Some "((a * b) + c)"
  /\ parseSource 10 "a / b / c * d" = Some "(((a / b) / c) * d)"
  /\ parseSource 20 "a == b < c + d * e" = Some "(a == (b < (c + (d * e))))"
  /\ parseSource 20 "a * b + c < d == e" = Some "((((a * b) + c) < d) == e)"
  /\ parseSource 20 "a != b == c >= d <= e" = Some "((a != b) == ((c >= d) <= e))"
  /\ parseSource 20 "1 - -2 - 3" = Some "((1 - -2) - 3)".
Proof. repeat split; vm_compute; reflexivity. Qed.

Import lexer_spec lexer_facts.

Lemma advance_ok p : parser_ok p -> parser_ok (advance p).
Proof.
  unfold parser_ok, advance. intros Hok.
  pose proof (NextToken_ok _ Hok) as H.
  destruct (NextToken (l p)) as [t l']. exact H.
Qed.

(** A token leaves the measure when the parser advances past it. *)
Lemma advance_weight p :
  parser_ok p -> (weight (advance p) + pending (curToken p) <= weight p)%nat.
Proof.
  unfold parser_ok, weight, advance, remaining. intros Hok.
  destruct (NextToken_advances _ Hok) as (_ & Hi & Hp).
  destruct (Nat.le_gt_cases (String.length (input (l p))) (position (l p)))
    as [He|Hlt].
  - destruct (NextToken_exhausted _ Hok He) as (Ht & _).
    destruct (NextToken (l p)) as [t l']. simpl in *.
    unfold pending at 1. rewrite Ht. simpl. rewrite Hi. lia.
  - destruct (NextToken (l p)) as [t l']. simpl in *.
    assert (pending t <= 1)%nat by (unfold pending; destruct (String.eqb _ _); lia).
    rewrite Hi. lia.
Qed.

Lemma advanced_add k1 k2 p : advanced k2 (advanced k1 p) = advanced (k2 + k1) p.
Proof. unfold advanced. now rewrite Nat.iter_add. Qed.

Lemma advanced_succ k p : advanced k (advance p) = advanced (S k) p.
Proof. unfold advanced. now rewrite Nat.iter_succ_r. Qed.

Lemma advanced_ok k p : parser_ok p -> parser_ok (advanced k p).
Proof.
  intros Hok. induction k as [|k IH]; [assumption|]. now apply advance_ok.
Qed.

Lemma advanced_weight k p :
  parser_ok p -> (weight (advanced k p) <= weight p)%nat.
Proof.
  intros Hok. induction k as [|k IH]; simpl; [lia|].
  pose proof (advance_weight _ (advanced_ok k p Hok)). unfold advanced in *. lia.
Qed.

(** Consuming a token other than EOF decreases the measure. *)
Lemma advanced_weight_lt k p :
  parser_ok p -> Type_ (curToken p) <> EOF -> (1 <= k)%nat ->
  (weight (advanced k p) < weight p)%nat.
Proof.
  intros Hok Hne Hk. destruct k as [|k]; [lia|].
  rewrite <- advanced_succ.
  pose proof (advanced_weight k _ (advance_ok _ Hok)).
  pose proof (advance_weight _ Hok) as Hw.
  unfold pending in Hw. destruct (String.eqb_spec (Type_ (curToken p)) EOF); [contradiction|].
  lia.
Qed.

Lemma terminates_ret {A} (a : A) p (Q : A -> nat -> Prop) :
  Q a 0%nat -> terminates (ret a) p Q.
Proof. intros H. exists a, 0%nat, []. auto. Qed.

Lemma terminates_bind {A B} (m : M A) (k : A -> M B) p Q1 (Q : B -> nat -> Prop) :
  terminates m p Q1 ->
  (forall a n, Q1 a n ->
     terminates (k a) (advanced n p) (fun b n' => Q b (n' + n)%nat)) ->
  terminates (bind m k) p Q.
Proof.
  intros (a & n & o & Hm & HQ1) Hk.
  destruct (Hk a n HQ1) as (b & n' & o' & Hb & HQ).
  exists b, (n' + n)%nat, (o ++ o')%list. unfold bind.
  rewrite Hm, Hb, advanced_add. auto.
Qed.

Lemma terminates_get {A B} (f : Parser -> A) (k : A -> M B) p
    (Q : B -> nat -> Prop) :
  terminates (k (f p)) p Q -> terminates (bind (get f) k) p Q.
Proof.
  intros (b & n & o & Hb & HQ). exists b, n, o. unfold bind, get.
  rewrite Hb. auto.
Qed.

Lemma terminates_cur {B} (k : Token -> M B) p (Q : B -> nat -> Prop) :
  terminates (k (curToken p)) p Q -> terminates (bind cur k) p Q.
Proof. apply terminates_get. Qed.

Lemma terminates_nextToken {B} (k : unit -> M B) p (Q : B -> nat -> Prop) :
  terminates (k tt) (advance p) (fun b n => Q b (S n)) ->
  terminates (bind nextToken k) p Q.
Proof.
  intros (b & n & o & Hb & HQ). exists b, (S n), o. unfold bind, nextToken.
  rewrite Hb, advanced_succ. auto.
Qed.

Lemma terminates_error {B} msg (k : unit -> M B) p (Q : B -> nat -> Prop) :
  terminates (k tt) p Q -> terminates (bind (errorAtCur msg) k) p Q.
Proof.
  intros (b & n & o & Hb & HQ). eexists b, n, _.
  unfold bind, errorAtCur, cur, get, emit, bind. rewrite Hb. auto.
Qed.

Lemma terminates_weaken {A} (m : M A) p (Q Q' : A -> nat -> Prop) :
  terminates m p Q -> (forall a n, Q a n -> Q' a n) -> terminates m p Q'.
Proof. intros (a & n & o & H & HQ) Hi. exists a, n, o. auto. Qed.

(** One step of a run: the action at the head of the goal is a primitive. *)
Ltac step :=
  cbv beta iota;
  first [ apply terminates_cur
        | apply terminates_get
        | apply terminates_nextToken
        | apply terminates_error
        | apply terminates_ret ].

Lemma parsePrimary_terminates p :
  terminates parsePrimary p (fun _ _ => True).
Proof.
  unfold parsePrimary. step.
  repeat match goal with
         | |- terminates (if ?b then _ else _) _ _ => destruct b
         | |- terminates (match ?x with _ => _ end) _ _ => destruct x
         end; repeat step; exact I.
Qed.

Lemma parseOperand_terminates p :
  terminates parseOperand p (fun _ _ => True).
Proof.
  unfold parseOperand. step.
  destruct (String.eqb (Type_ (curToken p)) MINUS); [|apply parsePrimary_terminates].
  repeat step.
  repeat match goal with
         | |- terminates (if ?b then _ else _) _ _ => destruct b
         | |- terminates (match ?x with _ => _ end) _ _ => destruct x
         end; repeat step; exact I.
Qed.

Lemma continues_pending q p :
  continues q p = true -> Type_ (curToken p) <> EOF.
Proof.
  unfold continues. intros H E. rewrite E in H. discriminate.
Qed.

(** [parseExpression] returns within a recursion depth linear in the
    measure. *)
Lemma parseExpression_terminates_both fuel :
  (forall q p, parser_ok p -> (2 * weight p + 2 <= fuel)%nat ->
     terminates (parseExpression fuel q) p (fun _ _ => True))
  /\ (forall q left_ p, parser_ok p -> (2 * weight p + 1 <= fuel)%nat ->
        terminates (parseExpressionLoop fuel q left_) p (fun _ _ => True)).
Proof.
  induction fuel as [|fuel [IHe IHl]]; (split; [intros q p Hok Hf | intros q left_ p Hok Hf]);
    try lia.
  - cbn [parseExpression].
    eapply terminates_bind; [apply parseOperand_terminates|].
    intros [left_|] n _; [|step; exact I].
    eapply terminates_weaken; [apply IHl|auto].
    + now apply advanced_ok.
    + pose proof (advanced_weight n p Hok). lia.
  - cbn [parseExpressionLoop]. step.
    destruct (continues q p) eqn:Hc; [|step; exact I].
    pose proof (advanced_weight_lt 1 p Hok (continues_pending _ _ Hc) (le_n 1)) as Hlt.
    change (advanced 1 p) with (advance p) in Hlt.
    repeat step.
    eapply terminates_bind.
    { apply IHe; [now apply advance_ok | lia]. }
    intros [right_|] n _; [|repeat step; exact I].
    eapply terminates_weaken; [apply IHl|auto].
    + now apply advanced_ok, advance_ok.
    + pose proof (advanced_weight n _ (advance_ok _ Hok)). lia.
Qed.

Lemma parseExpression_terminates fuel q p :
  parser_ok p -> (2 * weight p + 2 <= fuel)%nat ->
  terminates (parseExpression fuel q) p (fun _ _ => True).
Proof. apply parseExpression_terminates_both. Qed.


Lemma below_advance w p : below w p -> below w (advance p).
Proof.
  intros [Hok Hw]. split; [now apply advance_ok|].
  pose proof (advance_weight p Hok). lia.
Qed.

Lemma below_advanced w n p : below w p -> below w (advanced n p).
Proof.
  intros [Hok Hw]. split; [now apply advanced_ok|].
  pose proof (advanced_weight n p Hok). lia.
Qed.

Lemma below_advance_lt w p :
  below (S w) p -> Type_ (curToken p) <> EOF -> below w (advance p).
Proof.
  intros [Hok Hw] Hne. split; [now apply advance_ok|].
  pose proof (advanced_weight_lt 1 p Hok Hne (le_n 1)) as H.
  change (advanced 1 p) with (advance p) in H. lia.
Qed.

Lemma below_advanced_lt w n p :
  below (S w) p -> Type_ (curToken p) <> EOF -> (1 <= n)%nat ->
  below w (advanced n p).
Proof.
  intros [Hok Hw] Hne Hn. split; [now apply advanced_ok|].
  pose proof (advanced_weight_lt n p Hok Hne Hn). lia.
Qed.

Lemma below_le w w' p : below w p -> (w <= w')%nat -> below w' p.
Proof. intros [Hok Hw] Hle. split; [assumption | lia]. Qed.

Lemma parseExpression_below fuel q w p :
  below w p -> (2 * w + 2 <= fuel)%nat ->
  terminates (parseExpression fuel q) p (fun _ _ => True).
Proof.
  intros [Hok Hw] Hf. apply parseExpression_terminates; [assumption | lia].
Qed.

Lemma skipSemicolons_terminates fuel :
  forall w p, below w p -> (w < fuel)%nat ->
    terminates (skipSemicolons fuel) p (fun _ _ => True).
Proof.
  induction fuel as [|fuel IH]; intros w p Hb Hf; [lia|].
  cbn [skipSemicolons]. step.
  destruct (String.eqb_spec (Type_ (curToken p)) SEMICOLON) as [E|]; [|step; exact I].
  step. destruct w as [|w].
  - destruct Hb as [Hok Hw].
    pose proof (advanced_weight_lt 1 p Hok) as H. rewrite E in H.
    specialize (H ltac:(discriminate) (le_n 1)). lia.
  - eapply terminates_weaken; [apply (IH w)|auto]; [|lia].
    apply below_advance_lt; [assumption|]. rewrite E. discriminate.
Qed.

(** The arithmetic on the numbers of tokens consumed. *)
Ltac count := cbv beta in *; intros; lia.

Lemma eqb_not_EOF t x : String.eqb t x = true -> x <> EOF -> t <> EOF.
Proof. intros E Hx. apply String.eqb_eq in E. congruence. Qed.

Lemma parsePrintStatement_terminates fuel w p :
  below w p -> (2 * w + 2 <= fuel)%nat ->
  terminates (parsePrintStatement fuel) p (fun _ k => (1 <= k)%nat).
Proof.
  intros Hb Hf. unfold parsePrintStatement. repeat step.
  eapply terminates_bind.
  { eapply parseExpression_below; [apply below_advance; eassumption | assumption]. }
  intros [v|] n _; repeat step; count.
Qed.

Lemma parseAssignment_terminates fuel w p :
  below w p -> (2 * w + 2 <= fuel)%nat ->
  terminates (parseAssignment fuel) p (fun _ k => (1 <= k)%nat).
Proof.
  intros Hb Hf. unfold parseAssignment. repeat step.
  destruct (negb _); [repeat step; count|].
  repeat step.
  destruct (negb _); [repeat step; count|].
  repeat step.
  eapply terminates_bind.
  { eapply parseExpression_below; [|eassumption].
    repeat apply below_advance. eassumption. }
  intros [v|] n _; repeat step; count.
Qed.

(** The statement parsers return within a recursion depth linear in the
    measure; a statement that is returned has consumed a token. *)
Lemma parseStatement_terminates_all fuel :
  (forall w p, below w p -> (4 * w + 3 <= fuel)%nat ->
     terminates (parseStatement fuel) p
       (fun r k => r <> None -> (1 <= k)%nat))
  /\ (forall w p, below w p -> Type_ (curToken p) <> EOF ->
        (4 * w + 2 <= fuel)%nat ->
        terminates (parseIfStatement fuel) p (fun _ k => (1 <= k)%nat))
  /\ (forall w p, below w p -> Type_ (curToken p) <> EOF ->
        (4 * w + 2 <= fuel)%nat ->
        terminates (parseBlockStatement fuel) p (fun _ k => (1 <= k)%nat))
  /\ (forall acc w p, below w p -> (4 * w + 4 <= fuel)%nat ->
        terminates (parseBlockLoop fuel acc) p (fun _ _ => True)).
Proof.
  induction fuel as [|fuel (IHs & IHi & IHb & IHl)].
  { repeat split; intros; lia. }
  split; [|split; [|split]].
  - (* parseStatement *)
    intros w p Hb Hf. cbn [parseStatement]. step.
    destruct (String.eqb (Type_ (curToken p)) SUN) eqn:E1.
    { eapply terminates_weaken;
        [eapply parseAssignment_terminates; [eassumption | lia] | auto]. }
    destruct (String.eqb (Type_ (curToken p)) SUNA) eqn:E2.
    { eapply terminates_bind;
        [eapply parsePrintStatement_terminates; [eassumption | lia]|].
      intros r n Hn. step. count. }
    destruct (String.eqb (Type_ (curToken p)) AGAR) eqn:E3.
    { eapply terminates_bind.
      { eapply IHi; [eassumption| |lia].
        eapply eqb_not_EOF; [eassumption | discriminate]. }
      intros r n Hn. step. count. }
    unfold invalidStatement. repeat step. intros H. now contradiction H.
  - (* parseIfStatement *)
    intros w p Hb Hne Hf. cbn [parseIfStatement]. repeat step.
    destruct w as [|w].
    { destruct Hb as [Hok Hw].
      pose proof (advanced_weight_lt 1 p Hok Hne (le_n 1)). lia. }
    pose proof (below_advance_lt _ _ Hb Hne) as Hb1.
    eapply terminates_bind.
    { eapply parseExpression_below; [eassumption | lia]. }
    intros [c|] n _; [|repeat step; count].
    step.
    destruct (negb _) eqn:Elb; [repeat step; count|].
    apply negb_false_iff in Elb.
    eapply terminates_bind.
    { eapply IHb; [apply below_advanced; eassumption| |lia].
      eapply eqb_not_EOF; [eassumption | discriminate]. }
    intros [cons_|] n1 Hn1; [|repeat step; count].
    step.
    eapply terminates_bind.
    { eapply skipSemicolons_terminates; [|shelve].
      apply below_advance, below_advanced, below_advanced. eassumption. }
    intros _ n2 _. step.
    destruct (String.eqb _ MAGAR); [|step; count].
    repeat step.
    destruct (negb _) eqn:Elb2; [repeat step; count|].
    apply negb_false_iff in Elb2.
    eapply terminates_bind.
    { eapply IHb; [|eapply eqb_not_EOF; [eassumption | discriminate]|shelve].
      apply below_advance, below_advanced, below_advance, below_advanced,
        below_advanced. eassumption. }
    intros [alt|] n3 Hn3; repeat step; count.
    Unshelve. all: lia.
  - (* parseBlockStatement *)
    intros w p Hb Hne Hf. cbn [parseBlockStatement]. repeat step.
    destruct w as [|w].
    { destruct Hb as [Hok Hw].
      pose proof (advanced_weight_lt 1 p Hok Hne (le_n 1)). lia. }
    pose proof (below_advance_lt _ _ Hb Hne) as Hb1.
    eapply terminates_bind.
    { eapply IHl; [eassumption | lia]. }
    intros stmts n _. step.
    destruct (negb _); repeat step; count.
  - (* parseBlockLoop *)
    intros acc w p Hb Hf. cbn [parseBlockLoop]. step.
    destruct (negb (String.eqb (Type_ (curToken p)) RBRACE)
              && negb (String.eqb (Type_ (curToken p)) EOF)) eqn:Ec;
      [|step; exact I].
    apply andb_prop in Ec. destruct Ec as [_ Ec].
    apply negb_true_iff in Ec.
    assert (Type_ (curToken p) <> EOF) as Hne
      by (intros E; rewrite E in Ec; discriminate).
    destruct w as [|w].
    { destruct Hb as [Hok Hw].
      pose proof (advanced_weight_lt 1 p Hok Hne (le_n 1)). lia. }
    eapply terminates_bind.
    { eapply IHs; [eassumption | lia]. }
    intros stmt n Hn.
    eapply terminates_bind with (Q1 := fun _ k => (1 <= k + n)%nat).
    { destruct stmt as [s|]; repeat step; [|count].
      assert (1 <= n)%nat by (apply Hn; discriminate). lia. }
    intros acc' n1 Hn1.
    assert (below w (advanced n1 (advanced n p))) as Hb'
      by (rewrite advanced_add; now apply below_advanced_lt).
    eapply terminates_bind.
    { eapply skipSemicolons_terminates; [eassumption | lia]. }
    intros _ n2 _.
    eapply terminates_weaken; [eapply IHl|auto]; [|shelve].
    apply below_advanced. eassumption.
    Unshelve. lia.
Qed.

Lemma parseStatement_terminates fuel w p :
  below w p -> (4 * w + 3 <= fuel)%nat ->
  terminates (parseStatement fuel) p (fun r k => r <> None -> (1 <= k)%nat).
Proof. apply parseStatement_terminates_all. Qed.

Lemma terminates_run {A} (m : M A) p Q :
  terminates m p Q -> exists a k o, m p = Some (a, advanced k p, o) /\ Q a k.
Proof. auto. Qed.

(** A turn of the loop of [ParseProgram], entered on a token other than
    EOF, consumes at least one token. *)
Lemma parseProgramStep_turn fuel acc w p :
  below w p -> (4 * w + 3 <= fuel)%nat -> turn fuel acc p.
Proof.
  intros Hb Hf.
  destruct (parseStatement_terminates fuel w p Hb Hf) as (r & n & o & Hs & Hn).
  assert (forall q, below w q -> exists j o',
             skipSemicolons fuel q = Some (tt, advanced j q, o')) as Hsk.
  { intros q Hq.
    destruct (skipSemicolons_terminates fuel w q Hq ltac:(lia))
      as ([] & j & o' & E & _). eauto. }
  unfold turn, parseProgramStep.
  destruct r as [s|].
  - destruct (Hsk (advanced n p) (below_advanced _ _ _ Hb)) as (j & o' & Ej).
    exists (Some s), n, o, j. unfold bind, cur, get.
    destruct (Debug p); eexists; (split; [exact Hs|]);
      (split; [apply Hn; discriminate|]);
      unfold emit, ret; rewrite Hs, Ej, advanced_add; reflexivity.
  - destruct (Hsk (advance (advanced n p))
                (below_advance _ _ (below_advanced _ _ _ Hb))) as (j & o' & Ej).
    exists None, n, o, j. unfold bind, cur, get.
    destruct (Debug p); eexists; (split; [exact Hs|]);
      unfold emit, ret; rewrite Hs;
      unfold invalidStatement, errorAtCur, bind, cur, get, emit, nextToken;
      rewrite Ej; change (advance (advanced n p)) with (advanced (1 + n) p);
      rewrite advanced_add; reflexivity.
Qed.

Lemma turn_progress fuel acc p :
  turn fuel acc p ->
  terminates (parseProgramStep fuel acc) p (fun _ k => (1 <= k)%nat).
Proof.
  intros (r & n & o & j & o' & Hs & H). destruct r as [s|].
  - destruct H as [Hn H]. eexists _, _, _. split; [exact H | lia].
  - eexists _, _, _. split; [exact H | lia].
Qed.

Lemma parseProgramLoop_terminates fuel :
  forall acc w p, below w p -> (4 * w + 4 <= fuel)%nat ->
    terminates (parseProgramLoop fuel acc) p
      (fun _ k => Type_ (curToken (advanced k p)) = EOF).
Proof.
  induction fuel as [|fuel IH]; intros acc w p Hb Hf; [lia|].
  cbn [parseProgramLoop]. step.
  destruct (String.eqb_spec (Type_ (curToken p)) EOF) as [E|Hne]; simpl.
  { step. exact E. }
  destruct w as [|w].
  { destruct Hb as [Hok Hw].
    pose proof (advanced_weight_lt 1 p Hok Hne (le_n 1)). lia. }
  eapply terminates_bind.
  { apply turn_progress. eapply parseProgramStep_turn; [eassumption | lia]. }
  intros acc' n Hn.
  eapply terminates_weaken.
  { eapply (IH acc' w); [|lia]. now apply below_advanced_lt. }
  intros u k Hk. cbv beta in *. now rewrite <- advanced_add.
Qed.

Lemma New_below inp dbg :
  below (String.length inp + 2) (New (lexer.New inp) dbg).
Proof.
  unfold New. apply below_advance, below_advance.
  split.
  - apply New_ok.
  - unfold weight, remaining.
    change (pending (peekToken _)) with 1%nat.
    change (pending (curToken _)) with 1%nat.
    cbn [l]. rewrite New_input. lia.
Qed.

Lemma ParseProgram_returns inp dbg :
  terminates (ParseProgram (fuelFor inp)) (New (lexer.New inp) dbg)
    (fun _ k => Type_ (curToken (advanced k (New (lexer.New inp) dbg))) = EOF).
Proof.
  unfold ParseProgram.
  eapply terminates_bind.
  { eapply parseProgramLoop_terminates; [apply New_below|]. unfold fuelFor. lia. }
  intros stmts n Hn. step. exact Hn.
Qed.

(** *** Where the tokens form an expression, [parseExpression] returns one *)

Lemma getPrecedence_lowest t : LOWEST <= getPrecedence t.
Proof.
  unfold getPrecedence, precedences, lookup_prec, LOWEST.
  repeat match goal with
         | |- context [String.eqb t ?x] => destruct (String.eqb t x)
         end; vm_compute; discriminate.
Qed.

Lemma continues_lowest q p :
  LOWEST <= q -> continues q p = true -> continues LOWEST p = true.
Proof.
  unfold continues. intros Hq H.
  repeat match type of H with
         | _ && _ = true => apply andb_prop in H; destruct H as [H ?]
         end.
  repeat (apply andb_true_intro; split); try assumption.
  match goal with
  | Hlt : (q <? _) = true |- _ => apply Z.ltb_lt in Hlt; apply Z.ltb_lt; lia
  end.
Qed.

Lemma parseExpression_succeeds_both fuel :
  (forall q p r p' o,
      LOWEST <= q -> expressionAt p ->
      parseExpression fuel q p = Some (r, p', o) -> r <> None /\ restAt p')
  /\ (forall q left_ p r p' o,
        LOWEST <= q -> restAt p ->
        parseExpressionLoop fuel q left_ p = Some (r, p', o) ->
        r <> None /\ restAt p').
Proof.
  induction fuel as [|fuel [IHe IHl]];
    (split; [intros q p r p' o Hq Hat H | intros q left_ p r p' o Hq Hat H]);
    try discriminate.
  - cbn [parseExpression] in H. run_inv H.
    inversion Hat as [pa e pb ob Hop Hrest]; subst.
    rewrite Hop in Hrun. injection Hrun as <- <- <-.
    eapply IHl; eassumption.
  - cbn [parseExpressionLoop] in H. run_inv H. prim_inv.
    destruct (continues q p) eqn:Hc.
    + run_inv H. prim_inv.
      pose proof (continues_lowest _ _ Hq Hc) as Hl.
      inversion Hat as [pa Hend|pa _ Hnext]; subst; [congruence|].
      destruct (IHe _ _ _ _ _ (getPrecedence_lowest _) Hnext Hrun1) as [Hr Hrest].
      destruct a1 as [right_|]; [|contradiction].
      eapply IHl; eassumption.
    + prim_inv. split; [discriminate | assumption].
Qed.

(** On tokens that form an expression, and within a recursion bound
    linear in the measure, [parseExpression] returns an expression, which
    is then the well nested tree of C7. *)
Lemma parseExpression_succeeds fuel p :
  parser_ok p -> expressionAt p -> (2 * weight p + 2 <= fuel)%nat ->
  exists e k o,
    parseExpression fuel LOWEST p = Some (Some e, advanced k p, o)
    /\ climbs LOWEST p e (advanced k p).
Proof.
  intros Hok Hat Hf.
  destruct (parseExpression_terminates fuel LOWEST p Hok Hf)
    as (r & k & o & H & _).
  destruct (parseExpression_succeeds_both fuel) as [Hs _].
  destruct (Hs _ _ _ _ _ (Z.le_refl _) Hat H) as [Hr _].
  destruct r as [e|]; [|contradiction].
  exists e, k, o. split; [exact H|].
  destruct (precedence_climbing fuel) as [Hc _]. eapply Hc. exact H.
Qed.

(** *** The recursion bound does not matter once it is large enough *)

Lemma refines_refl {A} (m : M A) : refines m m.
Proof. intros p r H. exact H. Qed.

Lemma refines_bind {A B} (m m' : M A) (k k' : A -> M B) :
  refines m m' -> (forall a, refines (k a) (k' a)) ->
  refines (bind m k) (bind m' k').
Proof.
  intros Hm Hk p r. unfold bind.
  destruct (m p) as [[[a p1] o1]|] eqn:E; [|discriminate].
  rewrite (Hm _ _ E).
  destruct (k a p1) as [[[b p2] o2]|] eqn:E2; [|discriminate].
  now rewrite (Hk _ _ _ E2).
Qed.

Lemma refines_out_of_fuel {A} (m : M A) : refines out_of_fuel m.
Proof. intros p r H. discriminate. Qed.

(** Both sides have the same shape: descend through it to the recursive
    calls. *)
Ltac refine_shape :=
  repeat first
    [ assumption
    | apply refines_out_of_fuel
    | match goal with
      | H : forall x, refines _ _ |- _ => apply H
      | H : forall x y, refines _ _ |- _ => apply H
      end
    | apply refines_bind; [|intros ?]
    | match goal with
      | |- refines (if ?b then _ else _) _ => destruct b
      | |- refines (match ?x with _ => _ end) _ => destruct x
      end
    | apply refines_refl ].

Lemma parseExpression_mono fuel :
  (forall q, refines (parseExpression fuel q) (parseExpression (S fuel) q))
  /\ (forall q left_, refines (parseExpressionLoop fuel q left_)
                        (parseExpressionLoop (S fuel) q left_)).
Proof.
  induction fuel as [|fuel [IHe IHl]]; (split; [intros q | intros q left_]);
    try apply refines_out_of_fuel.
  - change (refines
      (left_ <- parseOperand ;;
       match left_ with
       | None => ret None
       | Some left_ => parseExpressionLoop fuel q left_
       end)
      (left_ <- parseOperand ;;
       match left_ with
       | None => ret None
       | Some left_ => parseExpressionLoop (S fuel) q left_
       end)).
    refine_shape.
  - cbn [parseExpressionLoop]. cbn [parseExpressionLoop] in IHl. refine_shape.
Qed.

Lemma skipSemicolons_mono fuel :
  refines (skipSemicolons fuel) (skipSemicolons (S fuel)).
Proof.
  induction fuel as [|fuel IH]; [apply refines_out_of_fuel|].
  cbn [skipSemicolons]. cbn [skipSemicolons] in IH. refine_shape.
Qed.

Lemma parsePrintStatement_mono fuel :
  refines (parsePrintStatement fuel) (parsePrintStatement (S fuel)).
Proof.
  destruct (parseExpression_mono fuel) as [He _].
  unfold parsePrintStatement. refine_shape.
Qed.

Lemma parseAssignment_mono fuel :
  refines (parseAssignment fuel) (parseAssignment (S fuel)).
Proof.
  destruct (parseExpression_mono fuel) as [He _].
  unfold parseAssignment. refine_shape.
Qed.

Lemma parseStatement_mono fuel :
  refines (parseStatement fuel) (parseStatement (S fuel))
  /\ refines (parseIfStatement fuel) (parseIfStatement (S fuel))
  /\ refines (parseBlockStatement fuel) (parseBlockStatement (S fuel))
  /\ (forall acc, refines (parseBlockLoop fuel acc) (parseBlockLoop (S fuel) acc)).
Proof.
  induction fuel as [|fuel (IHs & IHi & IHb & IHl)].
  { repeat split; try intros acc; apply refines_out_of_fuel. }
  pose proof (parsePrintStatement_mono fuel) as Hp.
  pose proof (parseAssignment_mono fuel) as Ha.
  pose proof (skipSemicolons_mono fuel) as Hk.
  destruct (parseExpression_mono fuel) as [He _].
  split; [|split; [|split]].
  - cbn [parseStatement]. cbn [parseStatement] in IHs. refine_shape.
  - cbn [parseIfStatement]. cbn [parseIfStatement] in IHi. refine_shape.
  - cbn [parseBlockStatement]. cbn [parseBlockStatement] in IHb. refine_shape.
  - intros acc. cbn [parseBlockLoop]. cbn [parseBlockLoop] in IHl. refine_shape.
Qed.

Lemma parseProgramLoop_mono fuel :
  forall acc, refines (parseProgramLoop fuel acc) (parseProgramLoop (S fuel) acc).
Proof.
  induction fuel as [|fuel IH]; intros acc; [apply refines_out_of_fuel|].
  destruct (parseStatement_mono fuel) as (Hs & _).
  pose proof (skipSemicolons_mono fuel) as Hk.
  cbn [parseProgramLoop]. cbn [parseProgramLoop] in IH.
  unfold parseProgramStep. refine_shape.
Qed.

(** A parse that returns within some bound returns the same within any
    larger bound. *)
Lemma ParseProgram_mono fuel fuel' p r :
  (fuel <= fuel')%nat ->
  ParseProgram fuel p = Some r -> ParseProgram fuel' p = Some r.
Proof.
  intros Hle. induction Hle as [|fuel' Hle IH]; [auto|].
  intros H. specialize (IH H). revert IH.
  unfold ParseProgram. apply refines_bind; [|intros; apply refines_refl].
  apply parseProgramLoop_mono.
Qed.



(** C2. The source text [suna 7 % 3]: the lexer has no token for the
    character [%] and returns it as ILLEGAL; the parser knows no such
    operator; the statement parsed is the print of the literal 7, not of
    a binary expression, and the two tokens left over are reported as
    invalid statements.  The run prints 7. *)
Theorem percent_is_not_parsed :
  let src := "suna 7 % 3" in
  map Type_ (tokens 5 (lexer.New src)) = [SUNA; INT; ILLEGAL; INT; EOF]
  /\ isOperator "%" = false
  /\ lookup_prec "%" precedences = None
  /\ (exists t1 t2 p' o,
        ParseProgram (fuelFor src) (New (lexer.New src) false)
        = Some (mkProgram
                  [Some (PrintStmt (Some (mkPrintStatement t1
                                            (Some (NumberLiteral t2 7)))))],
                p', o)).
Proof.
  cbv zeta. repeat split; try (vm_compute; reflexivity).
  eexists _, _, _, _. vm_compute. reflexivity.
Qed.

End parser_facts.

(** ** The interpreter *)

Module interpreter_facts.

Import lexer parser interpreter parser_spec interpreter_spec.

(** An evaluation that produces a value writes nothing. *)
Lemma evalBinaryExpression_value tok lv op rv o v :
  evalBinaryExpression tok lv op rv = (o, Returns (Some v)) -> o = [].
Proof.
  unfold evalBinaryExpression, intSwitch, invalidOperation.
  destruct lv, rv;
    repeat match goal with
           | |- context [if ?b then _ else _] => destruct b
           end; intros H; injection H; intros; subst; auto; discriminate.
Qed.

Lemma evalExpr_value i e :
  forall o v, evalExpr i e = (o, Returns (Some v)) -> o = [].
Proof.
  induction e as [id|tok v|tok v|tok l op r IHl IHr] using Expression_induction;
    intros o v0; simpl.
  - destruct (store (env i) !! Identifier_Value id); intros H; now injection H.
  - intros H; now injection H.
  - intros H; now injection H.
  - destruct l as [l|]; [|discriminate].
    destruct (evalExpr i l) as [o1 [[lv|]|m]] eqn:El; try discriminate.
    destruct r as [r|]; [|discriminate].
    destruct (evalExpr i r) as [o2 [[rv|]|m]] eqn:Er; try discriminate.
    destruct (evalBinaryExpression tok lv op rv) as [o3 r3] eqn:Eb.
    intros H. injection H as <- ->.
    rewrite (IHl l eq_refl _ _ El), (IHr r eq_refl _ _ Er).
    now rewrite (evalBinaryExpression_value _ _ _ _ _ _ Eb).
Qed.

(** No evaluation of an expression prints a line. *)
Lemma evalBinaryExpression_printed tok lv op rv :
  printed (fst (evalBinaryExpression tok lv op rv)) = [].
Proof.
  unfold evalBinaryExpression, intSwitch, invalidOperation.
  destruct lv, rv;
    repeat match goal with
           | |- context [if ?b then _ else _] => destruct b
           end; reflexivity.
Qed.

(** A failure met on the way is the failure of the whole expression,
    with nothing written but what the failing subexpression wrote. *)
Lemma reached_failure i e d o :
  reached i e d -> evalExpr i d = (o, Returns None) ->
  evalExpr i e = (o, Returns None).
Proof.
  induction 1 as [e|tok l op r d _ IH|tok l op r d o1 v El _ IH]; intros Hd.
  - exact Hd.
  - simpl. now rewrite (IH Hd).
  - simpl. rewrite El, (IH Hd).
    now rewrite (evalExpr_value _ _ _ _ El).
Qed.

Lemma reached_panic i e d o m :
  reached i e d -> evalExpr i d = (o, Panics m) ->
  evalExpr i e = (o, Panics m).
Proof.
  induction 1 as [e|tok l op r d _ IH|tok l op r d o1 v El _ IH]; intros Hd.
  - exact Hd.
  - simpl. now rewrite (IH Hd).
  - simpl. rewrite El, (IH Hd).
    now rewrite (evalExpr_value _ _ _ _ El).
Qed.

Lemma wrap64_range z : Go.in_int64 (Go.wrap64 z).
Proof.
  unfold Go.in_int64, Go.wrap64, Go.minInt64, Go.maxInt64.
  pose proof (Z.mod_pos_bound (z + 2 ^ 63) (2 ^ 64) ltac:(lia)). lia.
Qed.

Lemma wrap64_small z : Go.in_int64 z -> Go.wrap64 z = z.
Proof.
  unfold Go.in_int64, Go.wrap64, Go.minInt64, Go.maxInt64. intros H.
  rewrite Z.mod_small; lia.
Qed.

Lemma wrap64_congruent a b :
  a mod 2 ^ 64 = b mod 2 ^ 64 -> Go.wrap64 a = Go.wrap64 b.
Proof.
  unfold Go.wrap64. intros H.
  rewrite (Z.add_mod a), (Z.add_mod b), H by lia. reflexivity.
Qed.

Lemma wrap64_mod a : Go.wrap64 a mod 2 ^ 64 = a mod 2 ^ 64.
Proof.
  unfold Go.wrap64.
  rewrite Zminus_mod, Z.mod_mod by lia.
  rewrite <- Zminus_mod. f_equal. lia.
Qed.

(** The wrapped operations compute in the integers modulo 2^64. *)
Lemma wrap64_add a b : Go.wrap64 (Go.wrap64 a + Go.wrap64 b) = Go.wrap64 (a + b).
Proof.
  apply wrap64_congruent.
  rewrite Z.add_mod, !wrap64_mod, <- Z.add_mod by lia. reflexivity.
Qed.

Lemma wrap64_sub a b : Go.wrap64 (Go.wrap64 a - Go.wrap64 b) = Go.wrap64 (a - b).
Proof.
  apply wrap64_congruent.
  rewrite Zminus_mod, !wrap64_mod, <- Zminus_mod. reflexivity.
Qed.

Lemma wrap64_mul a b : Go.wrap64 (Go.wrap64 a * Go.wrap64 b) = Go.wrap64 (a * b).
Proof.
  apply wrap64_congruent.
  rewrite Z.mul_mod, !wrap64_mod, <- Z.mul_mod by lia. reflexivity.
Qed.

Lemma evalExpr_arith i e :
  arith e ->
  evalExpr i e = ([], Returns (Some (IntObject (Go.wrap64 (exact e))))).
Proof.
  induction 1 as [tok v Hv|tok l op r _ IHl _ IHr Hop].
  - simpl. now rewrite wrap64_small.
  - simpl. rewrite IHl, IHr.
    destruct Hop as [-> | [-> | ->]]; simpl;
      now rewrite ?wrap64_add, ?wrap64_sub, ?wrap64_mul.
Qed.

(** C4 (as amended). For an expression of integer literals under [+],
    [-] and [*], the print statement prints one line and nothing else: the
    decimal form of the exact value reduced modulo 2^64 into the signed
    64-bit range, which is the exact value itself whenever that value is
    within the range, whether or not an intermediate result is. *)
Theorem arithmetic_prints_wrapped i tok e :
  arith e ->
  evalStatement i (printOf tok e)
  = ([Println (Go.fmt_d (Go.wrap64 (exact e)))], Returns i)
  /\ Go.in_int64 (Go.wrap64 (exact e))
  /\ Go.wrap64 (exact e) mod 2 ^ 64 = exact e mod 2 ^ 64
  /\ (Go.in_int64 (exact e) -> Go.wrap64 (exact e) = exact e).
Proof.
  intros H. split; [|split; [|split]].
  - simpl. now rewrite (evalExpr_arith i e H).
  - apply wrap64_range.
  - apply wrap64_mod.
  - apply wrap64_small.
Qed.

Lemma arithmetic_prints_wrapped_witness :
  let e := binary (binary (literal 2) "*" (literal 3)) "-"
             (binary (literal 4) "*" (literal 5)) in
  arith e
  /\ evalStatement New (printOf anyToken e) = ([Println "-14"], Returns New).
Proof.
  cbv zeta.
  assert (arith (binary (binary (literal 2) "*" (literal 3)) "-"
                   (binary (literal 4) "*" (literal 5)))) as H.
  { repeat (apply arith_binary || apply arith_literal || (vm_compute; intuition discriminate)
            || (right; right; reflexivity) || (right; left; reflexivity)). }
  split; [exact H|].
  destruct (arithmetic_prints_wrapped New anyToken _ H) as (E & _).
  exact E.
Defined.

(** C4, the counterexample: the sum of the largest 64-bit integer and 1.
    Its exact value is 9223372036854775808; the line printed is
    -9223372036854775808. *)
Lemma overflow_is_not_exact :
  let e := binary (literal 9223372036854775807) "+" (literal 1) in
  arith e
  /\ exact e = 9223372036854775808
  /\ evalStatement New (printOf anyToken e)
     = ([Println "-9223372036854775808"], Returns New)
  /\ evalStatement New (printOf anyToken e)
     <> ([Println (Go.fmt_d (exact e))], Returns New).
Proof.
  cbv zeta. split; [|split; [|split]].
  - apply arith_binary; [apply arith_literal|apply arith_literal|left; reflexivity];
      vm_compute; intuition discriminate.
  - reflexivity.
  - vm_compute. reflexivity.
  - vm_compute. discriminate.
Qed.

Lemma evalExpression_some i x o r :
  evalExpression i x = (o, Returns (Some r)) ->
  exists e, x = Some e /\ evalExpr i e = ([], Returns (Some r)).
Proof.
  destruct x as [e|]; simpl; [|discriminate].
  intros H. exists e. split; [reflexivity|].
  now rewrite <- (evalExpr_value _ _ _ _ H).
Qed.

(** A statement that returns is followed by the rest of its list, run in
    the state it leaves. *)
Lemma rangeStatements_cons i s rest o i' :
  evalStatement i s = (o, Returns i') ->
  rangeStatements evalStatement (Some s :: rest) i
  = ((o ++ fst (rangeStatements evalStatement rest i'))%list,
     snd (rangeStatements evalStatement rest i')).
Proof.
  intros H. simpl. rewrite H.
  now destruct (rangeStatements evalStatement rest i').
Qed.

Lemma rangeStatements_panic i s rest o m :
  evalStatement i s = (o, Panics m) ->
  rangeStatements evalStatement (Some s :: rest) i = (o, Panics m).
Proof. intros H. simpl. now rewrite H. Qed.

(** The statement whose expression fails reports it and leaves the
    interpreter as it was. *)
Lemma encloses_failure i s tok e msg o :
  encloses s tok e msg ->
  evalExpr i e = (o, Returns None) ->
  evalStatement i s
  = ((o ++ [Errorf (Line tok) (Column tok) msg])%list, Returns i).
Proof.
  intros Hs He. destruct Hs as [tok e|tok name e|tok e [ctok cons_] alt];
    simpl; now rewrite He.
Qed.

Lemma encloses_panic i s tok e msg o m :
  encloses s tok e msg ->
  evalExpr i e = (o, Panics m) ->
  evalStatement i s = (o, Panics m).
Proof.
  intros Hs He. destruct Hs as [tok e|tok name e|tok e [ctok cons_] alt];
    simpl; now rewrite He.
Qed.

(** C6, as amended. A binary expression [/] whose operands evaluate to
    integers, the right one to zero, evaluates to the failure with exactly
    one diagnostic, which names the position of its token.  The statement
    in which this evaluation occurs then adds a diagnostic of its own, so
    that it writes two, and returns: it prints no line, it leaves the
    environment as it was, it does not panic, and the statements after it
    are run. *)
Theorem division_by_zero_is_reported i tok l r a o1 o2 s stok e msg rest :
  evalExpression i l = (o1, Returns (Some (IntObject a))) ->
  evalExpression i r = (o2, Returns (Some (IntObject 0))) ->
  encloses s stok e msg ->
  reached i e (BinaryExpression tok l "/" r) ->
  let diagnostic := Errorf (Line tok) (Column tok) "Division by zero " in
  evalExpr i (BinaryExpression tok l "/" r) = ([diagnostic], Returns None)
  /\ evalStatement i s
     = ([diagnostic; Errorf (Line stok) (Column stok) msg], Returns i)
  /\ printed (fst (evalStatement i s)) = []
  /\ rangeStatements evalStatement (Some s :: rest) i
     = (([diagnostic; Errorf (Line stok) (Column stok) msg]
         ++ fst (rangeStatements evalStatement rest i))%list,
        snd (rangeStatements evalStatement rest i)).
Proof.
  intros Hl Hr Hs Hreach diagnostic.
  destruct (evalExpression_some _ _ _ _ Hl) as (l' & -> & El).
  destruct (evalExpression_some _ _ _ _ Hr) as (r' & -> & Er).
  assert (evalExpr i (BinaryExpression tok (Some l') "/" (Some r'))
          = ([diagnostic], Returns None)) as Hd
    by (simpl; now rewrite El, Er).
  assert (evalStatement i s
          = ([diagnostic; Errorf (Line stok) (Column stok) msg], Returns i)) as Hst.
  { rewrite (encloses_failure i s stok e msg [diagnostic] Hs); [reflexivity|].
    eapply reached_failure; eassumption. }
  split; [exact Hd|]. split; [exact Hst|]. split.
  - now rewrite Hst.
  - now apply rangeStatements_cons.
Qed.

Lemma division_by_zero_is_reported_witness :
  let e := binary (literal 1) "/" (literal 0) in
  evalStatement New (printOf anyToken e)
  = ([Errorf 1 1 "Division by zero ";
      Errorf 1 1 "Invalid expression in print "], Returns New)
  /\ Interpret New (Some (mkProgram [Some (printOf anyToken e);
                                     Some (printOf anyToken (literal 2))]))
     = ([Errorf 1 1 "Division by zero ";
         Errorf 1 1 "Invalid expression in print ";
         Println "2"], Returns New).
Proof.
  cbv zeta.
  destruct (division_by_zero_is_reported New anyToken
              (Some (literal 1)) (Some (literal 0)) 1 [] []
              (printOf anyToken (binary (literal 1) "/" (literal 0)))
              anyToken (binary (literal 1) "/" (literal 0))
              "Invalid expression in print "
              [Some (printOf anyToken (literal 2))]
              eq_refl eq_refl (encloses_print _ _) (reached_here _ _))
    as (_ & Hs & _ & Hrest).
  split; [exact Hs | exact Hrest].
Defined.

(** C6, the counterexample: the print of [1/0].  The evaluation of the
    division writes [Division by zero] and the print statement adds
    [Invalid expression in print]: the statement writes two diagnostics,
    not exactly one; so does the run of the source text [suna 1/0]. *)
Theorem division_by_zero_two_diagnostics :
  let e := binary (literal 1) "/" (literal 0) in
  evalStatement New (printOf anyToken e)
  = ([Errorf 1 1 "Division by zero ";
      Errorf 1 1 "Invalid expression in print "], Returns New)
  /\ (forall d, fst (evalStatement New (printOf anyToken e)) <> [d])
  /\ main.run 100 "suna 1/0"
     = Some ([Errorf 1 8 "Division by zero ";
              Errorf 1 6 "Invalid expression in print "], Returns New).
Proof.
  cbv zeta. split; [|split].
  - vm_compute. reflexivity.
  - intros d. vm_compute. discriminate.
  - vm_compute. reflexivity.
Qed.

Lemma evalBinaryExpression_panic tok lv op rv o m :
  evalBinaryExpression tok lv op rv = (o, Panics m) ->
  op = "%" /\ rv = IntObject 0 /\ (exists a, lv = IntObject a) /\ o = []
  /\ m = divide_error.
Proof.
  unfold evalBinaryExpression, intSwitch, invalidOperation.
  destruct lv as [a|a], rv as [b|b]; try discriminate.
  - destruct (String.eqb op "+"); [discriminate|].
    destruct (String.eqb op "-"); [discriminate|].
    destruct (String.eqb op "*"); [discriminate|].
    destruct (String.eqb_spec op "%") as [->|].
    + destruct (Z.eqb_spec b 0) as [->|]; [|discriminate].
      intros H. injection H as <- <-. repeat split; eauto.
    + repeat match goal with
             | |- context [if ?b then _ else _] => destruct b
             end; discriminate.
  - destruct (String.eqb op "+"); discriminate.
Qed.

(** The evaluation of an expression panics only at a [%] whose operands
    have evaluated to integers, the right one to zero. *)
Lemma evalExpr_panic i e :
  forall o m, evalExpr i e = (o, Panics m) ->
    exists tok l r a,
      reached i e (BinaryExpression tok (Some l) "%" (Some r))
      /\ evalExpr i l = ([], Returns (Some (IntObject a)))
      /\ evalExpr i r = ([], Returns (Some (IntObject 0))).
Proof.
  induction e as [id|tok v|tok v|tok l op r IHl IHr] using Expression_induction;
    intros o m; simpl; try discriminate.
  - destruct (store (env i) !! Identifier_Value id); discriminate.
  - destruct l as [l|]; [|discriminate].
    destruct (evalExpr i l) as [o1 [[lv|]|m1]] eqn:El; try discriminate.
    + destruct r as [r|]; [|discriminate].
      destruct (evalExpr i r) as [o2 [[rv|]|m2]] eqn:Er; try discriminate.
      * destruct (evalBinaryExpression tok lv op rv) as [o3 r3] eqn:Eb.
        intros H. injection H as _ ->.
        destruct (evalBinaryExpression_panic _ _ _ _ _ _ Eb)
          as (-> & -> & (a & ->) & _).
        pose proof (evalExpr_value _ _ _ _ El) as ->.
        pose proof (evalExpr_value _ _ _ _ Er) as ->.
        exists tok, l, r, a. split; [apply reached_here | auto].
      * intros _. destruct (IHr r eq_refl _ _ Er) as (t & l0 & r0 & a & Hr0 & H).
        exists t, l0, r0, a. split; [|exact H].
        eapply reached_right; eassumption.
    + intros _. destruct (IHl l eq_refl _ _ El) as (t & l0 & r0 & a & Hr0 & H).
      exists t, l0, r0, a. split; [|exact H].
      now apply reached_left.
Qed.

Lemma evalExpr_panic_message i e o m :
  evalExpr i e = (o, Panics m) -> m = divide_error.
Proof.
  revert o m.
  induction e as [id|tok v|tok v|tok l op r IHl IHr] using Expression_induction;
    intros o m; simpl; try discriminate.
  - destruct (store (env i) !! Identifier_Value id); discriminate.
  - destruct l as [l|]; [|discriminate].
    destruct (evalExpr i l) as [o1 [[lv|]|m1]] eqn:El; try discriminate.
    + destruct r as [r|]; [|discriminate].
      destruct (evalExpr i r) as [o2 [[rv|]|m2]] eqn:Er; try discriminate.
      * destruct (evalBinaryExpression tok lv op rv) as [o3 r3] eqn:Eb.
        intros H. injection H as _ ->.
        apply (evalBinaryExpression_panic _ _ _ _ _ _ Eb).
      * intros H. injection H as _ <-. eapply IHr; eauto.
    + intros H. injection H as _ <-. eapply IHl; eauto.
Qed.

Lemma rangeStatements_panic_message stmts :
  allStatements
    (fun s => forall i o m, evalStatement i s = (o, Panics m) -> m = divide_error)
    stmts ->
  forall i o m,
    rangeStatements evalStatement stmts i = (o, Panics m) -> m = divide_error.
Proof.
  induction 1 as [|[s|] rest Hs _ IH]; intros i o m; simpl.
  - discriminate.
  - destruct (evalStatement i s) as [o1 [i1|m1]] eqn:E1.
    + destruct (rangeStatements evalStatement rest i1) as [o2 r2] eqn:E2.
      intros H. injection H as _ ->. eapply IH; eauto.
    + intros H. injection H as _ <-. eapply Hs; eauto.
  - destruct (rangeStatements evalStatement rest i) as [o2 r2] eqn:E2.
    intros H. injection H as _ ->. eapply IH; eauto.
Qed.

(** Whatever the statement, the only panic of its evaluation is that of
    a remainder by zero. *)
Lemma evalStatement_panic_message s :
  forall i o m, evalStatement i s = (o, Panics m) -> m = divide_error.
Proof.
  induction s as [[s|]|[s|]|b| |tok cond cons_ alt Hc Ha] using Statement_induction;
    intros i o m; simpl; try discriminate.
  - destruct (PrintStatement_Value s) as [e|]; [|discriminate].
    destruct (evalExpr i e) as [o1 [[v|]|m1]] eqn:E; try discriminate.
    intros H. injection H as _ <-. eapply evalExpr_panic_message; eauto.
  - destruct (AssignmentStatement_Name s), (AssignmentStatement_Value s) as [e|];
      try discriminate.
    destruct (evalExpr i e) as [o1 [[v|]|m1]] eqn:E; try discriminate.
    intros H. injection H as _ <-. eapply evalExpr_panic_message; eauto.
  - destruct cond as [c|]; [|discriminate].
    destruct cons_ as [[ctok cstmts]|]; [|discriminate].
    destruct (evalExpr i c) as [o1 [[v|]|m1]] eqn:E; try discriminate.
    + destruct (isTruthy v).
      * destruct (rangeStatements evalStatement cstmts i) as [o2 r2] eqn:E2.
        intros H. injection H as _ ->.
        eapply rangeStatements_panic_message; [exact Hc | exact E2].
      * destruct alt as [[atok astmts]|]; [|discriminate].
        destruct (rangeStatements evalStatement astmts i) as [o2 r2] eqn:E2.
        intros H. injection H as _ ->.
        eapply rangeStatements_panic_message; [exact Ha | exact E2].
    + intros H. injection H as _ <-. eapply evalExpr_panic_message; eauto.
Qed.

(** [Interpret] panics only with a remainder by zero. *)
Lemma Interpret_panic_message i program o m :
  Interpret i program = (o, Panics m) -> m = divide_error.
Proof.
  destruct program as [[stmts]|]; simpl; [|discriminate].
  apply rangeStatements_panic_message.
  unfold allStatements. apply Forall_forall. intros [s|] _; [|exact I].
  apply evalStatement_panic_message.
Qed.

(** The statement whose expression comes to evaluate a [%] by zero
    panics with it, and so does the list of statements it is in. *)
Lemma modulo_by_zero_aborts i tok l r a s stok e msg rest :
  evalExpr i l = ([], Returns (Some (IntObject a))) ->
  evalExpr i r = ([], Returns (Some (IntObject 0))) ->
  encloses s stok e msg ->
  reached i e (BinaryExpression tok (Some l) "%" (Some r)) ->
  evalStatement i s = ([], Panics divide_error)
  /\ rangeStatements evalStatement (Some s :: rest) i
     = ([], Panics divide_error).
Proof.
  intros El Er Hs Hreach.
  assert (evalStatement i s = ([], Panics divide_error)) as Hst.
  { eapply encloses_panic; [eassumption|].
    eapply reached_panic; [eassumption|].
    simpl. now rewrite El, Er. }
  split; [exact Hst | now apply rangeStatements_panic].
Qed.

(** C1. A binary expression [%] over two integers, the right one zero,
    does not evaluate to the failure: the remainder panics, whatever the
    left operand.  On the program that prints [7 % 0] and then 1,
    [Interpret] panics with nothing written, the second statement not
    run; with [/] in the place of [%] it reports the division, then
    prints 1 and returns. *)
Theorem modulo_by_zero_panics tok a :
  evalBinaryExpression tok (IntObject a) "%" (IntObject 0)
  = ([], Panics divide_error)
  /\ Interpret New
       (Some (mkProgram
                [Some (printOf anyToken (binary (literal 7) "%" (literal 0)));
                 Some (printOf anyToken (literal 1))]))
     = ([], Panics divide_error)
  /\ Interpret New
       (Some (mkProgram
                [Some (printOf anyToken (binary (literal 7) "/" (literal 0)));
                 Some (printOf anyToken (literal 1))]))
     = ([Errorf 1 1 "Division by zero ";
         Errorf 1 1 "Invalid expression in print "; Println "1"],
        Returns New).
Proof. repeat split. Qed.

(** C8. An assignment statement with a name and an expression: if the
    expression evaluates to a value, nothing is written and the name is
    bound to the value, the other names keeping theirs; if it evaluates
    to the failure, the statement adds its diagnostic and the environment
    is the one before; if it panics, so does the statement.  A statement
    without a name or without an expression is reported and changes
    nothing, and a nil statement does nothing. *)
Theorem assignment_binds_or_keeps i tok name e :
  match evalExpr i e with
  | (o, Returns (Some value)) =>
      o = []
      /\ exists i',
          evalStatement i (assignmentOf tok name e) = ([], Returns i')
          /\ store (env i') !! Identifier_Value name = Some value
          /\ forall other, other <> Identifier_Value name ->
               store (env i') !! other = store (env i) !! other
  | (o, Returns None) =>
      evalStatement i (assignmentOf tok name e)
      = ((o ++ [Errorf (Line tok) (Column tok)
                  "Invalid expression in assignment "])%list, Returns i)
  | (o, Panics m) =>
      evalStatement i (assignmentOf tok name e) = (o, Panics m)
  end
  /\ (forall value,
        evalStatement i
          (AssignmentStmt (Some (mkAssignmentStatement tok None value)))
        = ([Errorf (Line tok) (Column tok) "Invalid assignment statement "],
           Returns i))
  /\ (forall name',
        evalStatement i
          (AssignmentStmt (Some (mkAssignmentStatement tok name' None)))
        = ([Errorf (Line tok) (Column tok) "Invalid assignment statement "],
           Returns i))
  /\ evalStatement i (AssignmentStmt None) = ([], Returns i).
Proof.
  split; [|split; [|split]].
  - destruct (evalExpr i e) as [o [[value|]|m]] eqn:E; simpl; rewrite E;
      try reflexivity.
    pose proof (evalExpr_value _ _ _ _ E) as ->.
    split; [reflexivity|].
    eexists. split; [reflexivity|]. simpl. split.
    + apply lookup_insert_eq.
    + intros other Hne. now apply lookup_insert_ne.
  - intros value. reflexivity.
  - intros [name'|]; reflexivity.
  - reflexivity.
Qed.

Lemma assignment_binds_or_keeps_witness :
  let x := mkIdentifier anyToken "x" in
  (exists i',
      evalStatement New (assignmentOf anyToken x (literal 5)) = ([], Returns i')
      /\ store (env i') !! "x" = Some (IntObject 5)
      /\ store (env i') !! "y" = None)
  /\ evalStatement New
       (assignmentOf anyToken x (binary (literal 5) "/" (literal 0)))
     = ([Errorf 1 1 "Division by zero ";
         Errorf 1 1 "Invalid expression in assignment "], Returns New).
Proof.
  cbv zeta. split.
  - pose proof (assignment_binds_or_keeps New anyToken
                  (mkIdentifier anyToken "x") (literal 5)) as [H _].
    simpl in H. destruct H as (_ & i' & H1 & H2 & H3).
    exists i'. split; [exact H1|]. split; [exact H2|].
    rewrite (H3 "y"); [reflexivity | discriminate].
  - exact (proj1 (assignment_binds_or_keeps New anyToken
                    (mkIdentifier anyToken "x")
                    (binary (literal 5) "/" (literal 0)))).
Defined.

End interpreter_facts.

(** ** The pipeline *)

Module main_facts.

Import lexer parser interpreter main parser_spec parser_facts.

(** A run that returns within some bound returns the same within any
    larger bound. *)
Lemma run_mono fuel fuel' code r :
  (fuel <= fuel')%nat -> run fuel code = Some r -> run fuel' code = Some r.
Proof.
  unfold run. intros Hle.
  destruct (ParseProgram fuel _) as [[[program p'] o1]|] eqn:E; [|discriminate].
  now rewrite (ParseProgram_mono _ _ _ _ Hle E).
Qed.

(** Every source text has a run. *)
Lemma run_total code : exists r, run (fuelFor code) code = Some r.
Proof.
  unfold run.
  destruct (ParseProgram_returns code false) as (program & n & o & E & _).
  rewrite E. destruct (Interpret interpreter.New (Some program)). eauto.
Qed.

(** C5. The run of the example program, as the README gives it and on
    one line, within the bound [fuelFor] or any larger one: standard
    output receives the three lines 2, hello world, fuck off!, in this
    order, and nothing else, no diagnostic of the parser or of the
    interpreter among them; the interpreter returns, with the three
    variables bound. *)
Theorem hello_prints_three_lines (n : nat) :
  let lines := [Println "2"; Println "hello world"; Println "fuck off!"] in
  (exists i,
      run (fuelFor hello_npp + n) hello_npp = Some (lines, Returns i)
      /\ store (env i) !! "number" = Some (IntObject 2)
      /\ store (env i) !! "a" = Some (StringObject "hello ")
      /\ store (env i) !! "b" = Some (StringObject "world"))
  /\ (exists i,
        run (fuelFor hello_line + n) hello_line = Some (lines, Returns i))
  /\ Go.render lines
     = "2" ++ Go.nl ++ "hello world" ++ Go.nl ++ "fuck off!" ++ Go.nl.
Proof.
  cbv zeta. split; [|split].
  - destruct (run (fuelFor hello_npp) hello_npp) as [[o [i|m]]|] eqn:E;
      try (vm_compute in E; discriminate).
    exists i. split.
    + rewrite (run_mono _ (fuelFor hello_npp + n) _ _ (Nat.le_add_r _ _) E).
      vm_compute in E. injection E as <- _. reflexivity.
    + vm_compute in E. injection E as _ <-. vm_compute. auto.
  - destruct (run (fuelFor hello_line) hello_line) as [[o [i|m]]|] eqn:E;
      try (vm_compute in E; discriminate).
    exists i.
    rewrite (run_mono _ (fuelFor hello_line + n) _ _ (Nat.le_add_r _ _) E).
    vm_compute in E. injection E as <- _. reflexivity.
  - vm_compute. reflexivity.
Qed.

(** Runs of source texts: arithmetic, the wrap-around of a sum, a
    division by zero between two prints, and the text of C2. *)
Lemma run_examples :
  run 100 "suna 2*3-4*5;" = Some ([Println "-14"], Returns interpreter.New)
  /\ run 100 "suna 1 - 2 - 3;" = Some ([Println "-4"], Returns interpreter.New)
  /\ run 100 "suna 9223372036854775807 + 1;"
     = Some ([Println "-9223372036854775808"], Returns interpreter.New)
  /\ run 100 "suna 1; suna 1/0; suna 2;"
     = Some ([Println "1"; Errorf 1 16 "Division by zero ";
              Errorf 1 14 "Invalid expression in print "; Println "2"],
             Returns interpreter.New)
  /\ run 100 "suna 7 % 3"
     = Some ([Errorf 1 9 "Invalid statement, got ILLEGAL // Keep it together, genius!";
              Errorf 1 9 "Invalid statement, got ILLEGAL // Keep it together, genius!";
              Errorf 1 11 "Invalid statement, got INT // Keep it together, genius!";
              Errorf 1 11 "Invalid statement, got INT // Keep it together, genius!";
              Println "7"], Returns interpreter.New).
Proof. repeat split; vm_compute; reflexivity. Qed.

End main_facts.
